(** * WowPages signalling server (server.js): a shallow embedding

    The server keeps one global object [users], keyed by socket id, and
    registers seven socket.io handlers per connection: [join], the five
    negotiation events ([offer], [answer], [ice-candidate], [reject-call],
    [hang-up]) and [disconnect].  A second variant of the file adds an
    Express route [/proxy] in front of the same handlers.

    Conventions of the embedding:
    - a plain JavaScript object with string keys is an association list in
      own-property order.  socket.io ids are 20-character base64 strings,
      never array indices, so own-property order is insertion order;
    - [console.log] calls are left out;
    - a handler that can raise returns an [outcome]; an uncaught [Throw]
      ends the run (Node terminates on an uncaught exception);
    - a handler returns the socket.io calls it makes ([io.emit],
      [socket.to(room).emit]); who receives them is socket.io's business
      and is modelled separately by [recipients]. *)

From Stdlib Require Import String Ascii List Bool Arith NArith Lia Permutation.
Import ListNotations.
Local Open Scope string_scope.
Local Open Scope list_scope.

(** ** Exceptions

    A computation that may raise: [Throw] carries the error object
    (its constructor and its [message]). *)

Inductive js_error : Type :=
| TypeError (message : string)
| AxiosError (message : string).

Definition message_of (e : js_error) : string :=
  match e with
  | TypeError m => m
  | AxiosError m => m
  end.

Inductive outcome (A : Type) : Type :=
| Ok (a : A)
| Throw (e : js_error).
Arguments Ok {A} a.
Arguments Throw {A} e.

Definition bind {A B : Type} (m : outcome A) (f : A -> outcome B) : outcome B :=
  match m with
  | Ok a => f a
  | Throw e => Throw e
  end.

Notation "x <- m ;; k" := (bind m (fun x => k))
  (at level 61, m at next level, right associativity).

(** ** Plain JavaScript objects with string keys *)

Module JsObject.

(** Own properties whose key is an array index (a decimal numeral without
    a leading zero, below 2^32 - 1) are listed first, by value; all other
    keys follow in insertion order.  The lists below model objects that
    have no array-index key. *)
Definition is_digit (c : ascii) : bool :=
  (48 <=? nat_of_ascii c)%nat && (nat_of_ascii c <=? 57)%nat.

Fixpoint all_digits (s : string) : bool :=
  match s with
  | EmptyString => true
  | String c s' => is_digit c && all_digits s'
  end.

Fixpoint digits_value (acc : N) (s : string) : N :=
  match s with
  | EmptyString => acc
  | String c s' => digits_value (acc * 10 + (N_of_ascii c - 48)) s'
  end.

Definition is_array_index (s : string) : bool :=
  match s with
  | EmptyString => false
  | String c s' =>
      all_digits s
      && (negb (Ascii.eqb c "0") || String.eqb s' "")
      && (digits_value 0 s <? 4294967295)%N
  end.

Section Obj.
Context {V : Type}.

(** [o[k]]: [None] stands for [undefined]. *)
Fixpoint get (k : string) (o : list (string * V)) : option V :=
  match o with
  | [] => None
  | (k', v) :: o' => if String.eqb k' k then Some v else get k o'
  end.

(** [o[k] = v]: an existing property keeps its place, a new one goes last
    (its key not being an array index). *)
Fixpoint set (k : string) (v : V) (o : list (string * V)) : list (string * V) :=
  match o with
  | [] => [(k, v)]
  | (k', v') :: o' =>
      if String.eqb k' k then (k, v) :: o' else (k', v') :: set k v o'
  end.

(** [delete o[k]]: never raises, also when [k] is not a property. *)
Fixpoint delete (k : string) (o : list (string * V)) : list (string * V) :=
  match o with
  | [] => []
  | (k', v') :: o' =>
      if String.eqb k' k then delete k o' else (k', v') :: delete k o'
  end.

(** [Object.keys(o)] and [Object.values(o)]. *)
Definition keys (o : list (string * V)) : list string := map fst o.
Definition values (o : list (string * V)) : list V := map snd o.
End Obj.

End JsObject.

(** ** The signalling relay *)

Module Relay.

(** The record stored by [join]: [{ username, id: socket.id }]. *)
Record user : Type := { username : string; id : string }.

(** Reading [.username] of [users[k]]: a TypeError on [undefined]. *)
Definition username_of (v : option user) : outcome string :=
  match v with
  | Some u => Ok (username u)
  | None => Throw (TypeError "Cannot read properties of undefined (reading 'username')")
  end.

(** [if (toSocket)]: [undefined] and the empty string are falsy. *)
Definition truthy (v : option string) : bool :=
  match v with
  | Some s => negb (String.eqb s "")
  | None => false
  end.

(** [Object.keys(users).find(key => users[key].username === to)].
    The callback only sees keys of [users], so [users[key]] is a record;
    the [None] branch is never taken (lemma [get_key_some]). *)
Definition find_socket (users : list (string * user)) (to : string) : option string :=
  find (fun key =>
          match JsObject.get key users with
          | Some u => String.eqb (username u) to
          | None => false
          end)
       (JsObject.keys users).

(** The registry entries bound to a display name, in own-property order. *)
Definition holders (users : list (string * user)) (name : string)
  : list (string * user) :=
  filter (fun kv => String.eqb (username (snd kv)) name) users.

Section WithPayload.
(** Session descriptions and ICE candidates: never inspected. *)
Context {Payload : Type}.

(** Events the server emits, with their data. *)
Inductive server_event : Type :=
| update_users (list : list user)
| offer (from : string) (offer : Payload)
| answer (from : string) (answer : Payload)
| ice_candidate (from : string) (candidate : Payload)
| call_rejected (from : string)
| hang_up.

(** The [from] field of an emitted event, when it has one. *)
Definition from_of (e : server_event) : option string :=
  match e with
  | offer f _ | answer f _ | ice_candidate f _ | call_rejected f => Some f
  | update_users _ | hang_up => None
  end.

(** The two socket.io calls server.js makes. *)
Inductive emit : Type :=
| io_emit (e : server_event)
| socket_to_emit (sender room : string) (e : server_event).

Definition event_of (a : emit) : server_event :=
  match a with
  | io_emit e => e
  | socket_to_emit _ _ e => e
  end.

(** socket.io: [io.emit] reaches every connected socket;
    [socket.to(room).emit] reaches the sockets of [room] except the
    sender.  Every socket sits in the room named by its own id and
    server.js never joins another room, so room [r] holds socket [r]. *)
Definition recipients (sockets : list string) (a : emit) : list string :=
  match a with
  | io_emit _ => sockets
  | socket_to_emit sender room _ =>
      filter (fun s => String.eqb s room && negb (String.eqb s sender)) sockets
  end.

Definition deliver (sockets : list string) (a : emit)
  : list (string * server_event) :=
  map (fun s => (s, event_of a)) (recipients sockets a).

Definition deliveries (sockets : list string) (out : list emit)
  : list (string * server_event) :=
  flat_map (deliver sockets) out.

(** The server: socket.io's connected sockets and [let users = {}]. *)
Record server : Type :=
  { sockets : list string; users : list (string * user) }.

Definition init : server := {| sockets := []; users := [] |}.

(** [socket.on('join', username => ...)] *)
Definition on_join (st : server) (sid username : string) : server * list emit :=
  let users' :=
    JsObject.set sid {| username := username; id := sid |} (users st) in
  ({| sockets := sockets st; users := users' |},
   [io_emit (update_users (JsObject.values users'))]).

(** The body shared by the five negotiation handlers: resolve [to], and
    only when the result is truthy build the event and emit it. *)
Definition relay (st : server) (sid to : string) (mk : outcome server_event)
  : outcome (list emit) :=
  let toSocket := find_socket (users st) to in
  if truthy toSocket then
    match toSocket with
    | Some room => e <- mk ;; Ok [socket_to_emit sid room e]
    | None => Ok []
    end
  else Ok [].

(** [users[socket.id].username] *)
Definition sender_name (st : server) (sid : string) : outcome string :=
  username_of (JsObject.get sid (users st)).

Definition on_offer (st : server) (sid to : string) (o : Payload) :=
  relay st sid to (from <- sender_name st sid ;; Ok (offer from o)).

Definition on_answer (st : server) (sid to : string) (a : Payload) :=
  relay st sid to (from <- sender_name st sid ;; Ok (answer from a)).

Definition on_ice_candidate (st : server) (sid to : string) (c : Payload) :=
  relay st sid to (from <- sender_name st sid ;; Ok (ice_candidate from c)).

Definition on_reject_call (st : server) (sid to : string) :=
  relay st sid to (from <- sender_name st sid ;; Ok (call_rejected from)).

(** [socket.to(toSocket).emit('hang-up')]: no data, [users[socket.id]]
    is not read. *)
Definition on_hang_up (st : server) (sid to : string) :=
  relay st sid to (Ok hang_up).

(** [socket.on('disconnect', () => ...)] *)
Definition on_disconnect (st : server) (sid : string) : server * list emit :=
  let users' := JsObject.delete sid (users st) in
  ({| sockets := sockets st; users := users' |},
   [io_emit (update_users (JsObject.values users'))]).

(** What a client sends, once the listener has destructured its data:
    an event with the destination name it carries.  The messages as the
    listeners are called with them, data missing or without a
    destination included, are [message] below. *)
Inductive client_event : Type :=
| Join (username : string)
| Offer (to : string) (offer : Payload)
| Answer (to : string) (answer : Payload)
| IceCandidate (to : string) (candidate : Payload)
| RejectCall (to : string)
| HangUp (to : string)
| Disconnect.

Definition handle (st : server) (sid : string) (ev : client_event)
  : outcome (server * list emit) :=
  match ev with
  | Join username => Ok (on_join st sid username)
  | Offer to o => out <- on_offer st sid to o ;; Ok (st, out)
  | Answer to a => out <- on_answer st sid to a ;; Ok (st, out)
  | IceCandidate to c => out <- on_ice_candidate st sid to c ;; Ok (st, out)
  | RejectCall to => out <- on_reject_call st sid to ;; Ok (st, out)
  | HangUp to => out <- on_hang_up st sid to ;; Ok (st, out)
  | Disconnect => Ok (on_disconnect st sid)
  end.

(** The destination name of a negotiation event. *)
Definition destination (ev : client_event) : option string :=
  match ev with
  | Offer to _ | Answer to _ | IceCandidate to _ | RejectCall to | HangUp to =>
      Some to
  | Join _ | Disconnect => None
  end.

(** *** Transport

    [io.on('connection')] adds a socket; socket.io drops a closing socket
    from the namespace before it fires [disconnect]. *)
Inductive input : Type :=
| Connection (sid : string)
| Event (sid : string) (ev : client_event).

Definition connected (st : server) (sid : string) : bool :=
  existsb (String.eqb sid) (sockets st).

Definition close_socket (st : server) (sid : string) : server :=
  {| sockets := filter (fun s => negb (String.eqb s sid)) (sockets st);
     users := users st |}.

Definition step (st : server) (i : input) : outcome (server * list emit) :=
  match i with
  | Connection sid =>
      Ok ({| sockets := sockets st ++ [sid]; users := users st |}, [])
  | Event sid Disconnect => handle (close_socket st sid) sid Disconnect
  | Event sid ev => handle st sid ev
  end.

(** What socket.io can hand to the server: on connection a fresh id,
    non-empty and not an array index (socket.io draws 20 characters of
    base64), and events of connected sockets only. *)
Definition admissible (st : server) (i : input) : bool :=
  match i with
  | Connection sid =>
      negb (String.eqb sid "")
      && negb (JsObject.is_array_index sid)
      && negb (connected st sid)
  | Event sid _ => connected st sid
  end.

(** A run: the final state and every emit, oldest first. *)
Fixpoint run (st : server) (tr : list input) : outcome (server * list emit) :=
  match tr with
  | [] => Ok (st, [])
  | i :: tr' =>
      r1 <- step st i ;;
      r2 <- run (fst r1) tr' ;;
      Ok (fst r2, snd r1 ++ snd r2)
  end.

Fixpoint admissible_trace (st : server) (tr : list input) : bool :=
  match tr with
  | [] => true
  | i :: tr' =>
      admissible st i &&
      match step st i with
      | Ok r => admissible_trace (fst r) tr'
      | Throw _ => true
      end
  end.

Definition reachable (st : server) : Prop :=
  exists tr out, admissible_trace init tr = true /\ run init tr = Ok (st, out).

(** The snapshot of the latest [update-users] broadcast of a log. *)
Fixpoint last_snapshot (log : list emit) : option (list user) :=
  match log with
  | [] => None
  | a :: log' =>
      match last_snapshot log' with
      | Some s => Some s
      | None =>
          match a with
          | io_emit (update_users s) => Some s
          | _ => None
          end
      end
  end.

(** *** What a trace says by itself

    Who is connected, and under which name, read off the inputs alone. *)
Definition input_sid (i : input) : string :=
  match i with
  | Connection sid => sid
  | Event sid _ => sid
  end.

Definition is_presence_input (i : input) : bool :=
  match i with
  | Connection _ | Event _ (Join _) | Event _ Disconnect => true
  | Event _ _ => false
  end.

Definition is_mutation (i : input) : bool :=
  match i with
  | Event _ (Join _) | Event _ Disconnect => true
  | _ => false
  end.

(** The display name [sid] holds after [i], given the one before. *)
Definition name_step (sid : string) (cur : option string) (i : input)
  : option string :=
  if String.eqb (input_sid i) sid then
    match i with
    | Connection _ => None
    | Event _ (Join n) => Some n
    | Event _ Disconnect => None
    | Event _ _ => cur
    end
  else cur.

Definition display_name (tr : list input) (sid : string) : option string :=
  fold_left (name_step sid) tr None.

Definition online_step (sid : string) (cur : bool) (i : input) : bool :=
  if String.eqb (input_sid i) sid then
    match i with
    | Connection _ => true
    | Event _ Disconnect => false
    | Event _ _ => cur
    end
  else cur.

Definition online (tr : list input) (sid : string) : bool :=
  fold_left (online_step sid) tr false.

Definition is_some {A : Type} (o : option A) : bool :=
  match o with Some _ => true | None => false end.

(** The connections that are connected and joined at the end of [tr]. *)
Definition joined_now (tr : list input) : list string :=
  filter (fun sid => online tr sid && is_some (display_name tr sid))
         (nodup string_dec (map input_sid tr)).

Definition current_name (tr : list input) (sid : string) : string :=
  match display_name tr sid with
  | Some n => n
  | None => ""
  end.

(** The records a trace calls for: one per connected, joined
    connection, under its current display name. *)
Definition roster (tr : list input) : list user :=
  map (fun sid => {| username := current_name tr sid; id := sid |})
      (joined_now tr).

(** *** The invariant of the server state

    Socket ids are distinct, non-empty and no array indices; the registry
    has one property per joined socket, every key is a connected socket,
    and a record carries the id it is stored under. *)
Record wf (st : server) : Prop :=
  { wf_sockets_nodup : NoDup (sockets st);
    wf_sockets_nonempty : ~ In "" (sockets st);
    wf_sockets_named :
      forall s, In s (sockets st) -> JsObject.is_array_index s = false;
    wf_users_nodup : NoDup (JsObject.keys (users st));
    wf_users_connected :
      forall k, In k (JsObject.keys (users st)) -> In k (sockets st);
    wf_users_id :
      forall k u, JsObject.get k (users st) = Some u -> id u = k }.
End WithPayload.

Arguments server_event : clear implicits.
Arguments emit : clear implicits.
Arguments client_event : clear implicits.
Arguments input : clear implicits.

(** *** Sample runs, with payloads written as text *)

(** Three clients join as alice, bob and carol. *)
Definition trio_trace : list (input string) :=
  [Connection "sA"; Connection "sB"; Connection "sC";
   Event "sA" (Join "alice"); Event "sB" (Join "bob");
   Event "sC" (Join "carol")].

Definition trio : server :=
  {| sockets := ["sA"; "sB"; "sC"];
     users := [("sA", {| username := "alice"; id := "sA" |});
               ("sB", {| username := "bob"; id := "sB" |});
               ("sC", {| username := "carol"; id := "sC" |})] |}.

(** Two clients join as carol, a third as dave. *)
Definition twins_trace : list (input string) :=
  [Connection "sA"; Event "sA" (Join "carol");
   Connection "sB"; Event "sB" (Join "carol");
   Connection "sD"; Event "sD" (Join "dave")].

Definition twins : server :=
  {| sockets := ["sA"; "sB"; "sD"];
     users := [("sA", {| username := "carol"; id := "sA" |});
               ("sB", {| username := "carol"; id := "sB" |});
               ("sD", {| username := "dave"; id := "sD" |})] |}.

(** One client is connected but has not joined; another joined as bob. *)
Definition early_trace : list (input string) :=
  [Connection "s1"; Connection "s2"; Event "s2" (Join "bob")].

Definition early : server :=
  {| sockets := ["s1"; "s2"];
     users := [("s2", {| username := "bob"; id := "s2" |})] |}.

(** Joins, a rename, a disconnect and a late connection. *)
Definition churn_trace : list (input string) :=
  [Connection "sA"; Connection "sB"; Event "sA" (Join "alice");
   Event "sB" (Join "bob"); Connection "sC"; Event "sA" (Join "al");
   Event "sB" Disconnect; Event "sC" (Join "")].

(** *** Further notions used to state properties of the relay *)

Definition is_hang_up {Payload : Type} (ev : client_event Payload) : bool :=
  match ev with
  | HangUp _ => true
  | _ => false
  end.

(** The event a negotiation handler builds, as [relay] receives it. *)
Definition built {Payload : Type} (st : server) (sid : string)
  (ev : client_event Payload) : outcome (server_event Payload) :=
  match ev with
  | Offer _ o => from <- sender_name st sid ;; Ok (offer from o)
  | Answer _ a => from <- sender_name st sid ;; Ok (answer from a)
  | IceCandidate _ c => from <- sender_name st sid ;; Ok (ice_candidate from c)
  | RejectCall _ => from <- sender_name st sid ;; Ok (call_rejected from)
  | _ => Ok hang_up
  end.

(** After the inputs [before], input [i] is no negotiation event of a
    sender without a record, the hang-up apart. *)
Definition sender_may_negotiate {Payload : Type}
  (before : list (input Payload)) (i : input Payload) : bool :=
  match i with
  | Connection _ => true
  | Event sid ev =>
      match destination ev with
      | Some _ => is_hang_up ev || is_some (display_name before sid)
      | None => true
      end
  end.

Fixpoint senders_joined_from {Payload : Type}
  (before rest : list (input Payload)) : bool :=
  match rest with
  | [] => true
  | i :: rest' =>
      sender_may_negotiate before i && senders_joined_from (before ++ [i]) rest'
  end.

(** Every client of the trace joins before it negotiates. *)
Definition senders_joined {Payload : Type} (tr : list (input Payload)) : bool :=
  senders_joined_from [] tr.

(** A call that ends with a hang-up, while a fourth socket only watches. *)
Definition call_trace : list (input string) :=
  [Connection "sA"; Connection "sB"; Event "sA" (Join "alice");
   Event "sB" (Join "bob"); Connection "sW";
   Event "sA" (Offer "bob" "sdp-offer"); Event "sB" (Answer "alice" "sdp-answer");
   Event "sA" (IceCandidate "bob" "candidate"); Event "sW" (HangUp "bob");
   Event "sB" (HangUp "alice"); Event "sB" Disconnect].

(** *** Messages as the listeners receive them

    socket.io calls a listener with the arguments of the client's
    [emit]: [data] is [undefined] when the client passed none, and may be
    [null].  Any other value destructures: [to] is its [to] property, or
    [undefined] when it has none.  Display names and destination names
    that are present are strings, as for the events above. *)
Inductive js_arg (A : Type) : Type :=
| Undefined
| Null
| Data (a : A).

Arguments Undefined {A}.
Arguments Null {A}.
Arguments Data {A} a.

(** [const { to } = data]: a TypeError on [undefined] and on [null]. *)
Definition destructure {A : Type} (data : js_arg A) : outcome A :=
  match data with
  | Undefined =>
      Throw (TypeError "Cannot destructure property 'to' of 'data' as it is undefined.")
  | Null =>
      Throw (TypeError "Cannot destructure property 'to' of 'data' as it is null.")
  | Data a => Ok a
  end.

(** [users[key].username === to]: a string is never [undefined]. *)
Definition strict_equal (username : string) (to : option string) : bool :=
  match to with
  | Some t => String.eqb username t
  | None => false
  end.

(** [Object.keys(users).find(key => users[key].username === to)] *)
Definition find_socket_for (users : list (string * user)) (to : option string)
  : option string :=
  find (fun key =>
          match JsObject.get key users with
          | Some u => strict_equal (username u) to
          | None => false
          end)
       (JsObject.keys users).

Section Messages.
Context {Payload : Type}.

(** The lines after the destructuring, shared by the five listeners. *)
Definition relay_for (st : server) (sid : string) (to : option string)
  (mk : outcome (server_event Payload)) : outcome (list (emit Payload)) :=
  let toSocket := find_socket_for (users st) to in
  if truthy toSocket then
    match toSocket with
    | Some room => e <- mk ;; Ok [socket_to_emit sid room e]
    | None => Ok []
    end
  else Ok [].

(** [socket.on('offer', (data) => ...)] and its siblings, whole. *)
Definition on_offer_data (st : server) (sid : string)
  (data : js_arg (option string * Payload)) : outcome (list (emit Payload)) :=
  d <- destructure data ;;
  relay_for st sid (fst d) (from <- sender_name st sid ;; Ok (offer from (snd d))).

Definition on_answer_data (st : server) (sid : string)
  (data : js_arg (option string * Payload)) : outcome (list (emit Payload)) :=
  d <- destructure data ;;
  relay_for st sid (fst d) (from <- sender_name st sid ;; Ok (answer from (snd d))).

Definition on_ice_candidate_data (st : server) (sid : string)
  (data : js_arg (option string * Payload)) : outcome (list (emit Payload)) :=
  d <- destructure data ;;
  relay_for st sid (fst d)
    (from <- sender_name st sid ;; Ok (ice_candidate from (snd d))).

Definition on_reject_call_data (st : server) (sid : string)
  (data : js_arg (option string)) : outcome (list (emit Payload)) :=
  to <- destructure data ;;
  relay_for st sid to (from <- sender_name st sid ;; Ok (call_rejected from)).

Definition on_hang_up_data (st : server) (sid : string)
  (data : js_arg (option string)) : outcome (list (emit Payload)) :=
  to <- destructure data ;;
  relay_for st sid to (Ok hang_up).

(** What a socket delivers to its listeners. *)
Inductive message : Type :=
| JoinMsg (username : string)
| OfferMsg (data : js_arg (option string * Payload))
| AnswerMsg (data : js_arg (option string * Payload))
| IceCandidateMsg (data : js_arg (option string * Payload))
| RejectCallMsg (data : js_arg (option string))
| HangUpMsg (data : js_arg (option string))
| DisconnectMsg.

Definition receive (st : server) (sid : string) (m : message)
  : outcome (server * list (emit Payload)) :=
  match m with
  | JoinMsg username => Ok (on_join st sid username)
  | OfferMsg data => out <- on_offer_data st sid data ;; Ok (st, out)
  | AnswerMsg data => out <- on_answer_data st sid data ;; Ok (st, out)
  | IceCandidateMsg data =>
      out <- on_ice_candidate_data st sid data ;; Ok (st, out)
  | RejectCallMsg data => out <- on_reject_call_data st sid data ;; Ok (st, out)
  | HangUpMsg data => out <- on_hang_up_data st sid data ;; Ok (st, out)
  | DisconnectMsg => Ok (on_disconnect st sid)
  end.

(** The transport, as for [step]. *)
Inductive arrival : Type :=
| Connects (sid : string)
| Receives (sid : string) (m : message).

Definition arrive (st : server) (a : arrival)
  : outcome (server * list (emit Payload)) :=
  match a with
  | Connects sid =>
      Ok ({| sockets := sockets st ++ [sid]; users := users st |}, [])
  | Receives sid DisconnectMsg => receive (close_socket st sid) sid DisconnectMsg
  | Receives sid m => receive st sid m
  end.

Definition may_arrive (st : server) (a : arrival) : bool :=
  match a with
  | Connects sid =>
      negb (String.eqb sid "")
      && negb (JsObject.is_array_index sid)
      && negb (connected st sid)
  | Receives sid _ => connected st sid
  end.

Fixpoint arrive_all (st : server) (tr : list arrival)
  : outcome (server * list (emit Payload)) :=
  match tr with
  | [] => Ok (st, [])
  | a :: tr' =>
      r1 <- arrive st a ;;
      r2 <- arrive_all (fst r1) tr' ;;
      Ok (fst r2, snd r1 ++ snd r2)
  end.

Fixpoint may_arrive_all (st : server) (tr : list arrival) : bool :=
  match tr with
  | [] => true
  | a :: tr' =>
      may_arrive st a &&
      match arrive st a with
      | Ok r => may_arrive_all (fst r) tr'
      | Throw _ => true
      end
  end.

(** *** What a message says by itself *)

Definition given {A : Type} (data : js_arg A) : bool :=
  match data with
  | Data _ => true
  | Undefined | Null => false
  end.

(** The listener is called with something to destructure. *)
Definition has_data (m : message) : bool :=
  match m with
  | OfferMsg data | AnswerMsg data | IceCandidateMsg data => given data
  | RejectCallMsg data | HangUpMsg data => given data
  | JoinMsg _ | DisconnectMsg => true
  end.

(** The destination name a message carries, if it carries one. *)
Definition to_of (m : message) : option string :=
  match m with
  | OfferMsg (Data d) | AnswerMsg (Data d) | IceCandidateMsg (Data d) => fst d
  | RejectCallMsg (Data to) | HangUpMsg (Data to) => to
  | _ => None
  end.

Definition is_hang_up_message (m : message) : bool :=
  match m with
  | HangUpMsg _ => true
  | _ => false
  end.

(** The event a message amounts to when it names a destination (a join
    and a disconnect always do amount to one). *)
Definition event_of_message (m : message) : option (client_event Payload) :=
  match m with
  | JoinMsg username => Some (Join username)
  | OfferMsg (Data (Some to, o)) => Some (Offer to o)
  | AnswerMsg (Data (Some to, a)) => Some (Answer to a)
  | IceCandidateMsg (Data (Some to, c)) => Some (IceCandidate to c)
  | RejectCallMsg (Data (Some to)) => Some (RejectCall to)
  | HangUpMsg (Data (Some to)) => Some (HangUp to)
  | DisconnectMsg => Some Disconnect
  | _ => None
  end.

Definition input_of (a : arrival) : list (input Payload) :=
  match a with
  | Connects sid => [Connection sid]
  | Receives sid m =>
      match event_of_message m with
      | Some ev => [Event sid ev]
      | None => []
      end
  end.

(** The connections, joins, disconnects and addressed events of a
    sequence of arrivals. *)
Definition inputs_of (tr : list arrival) : list (input Payload) :=
  flat_map input_of tr.

Definition arrival_has_data (a : arrival) : bool :=
  match a with
  | Connects _ => true
  | Receives _ m => has_data m
  end.
End Messages.

Arguments message : clear implicits.
Arguments arrival : clear implicits.

(** The call of [call_trace] as it arrives, with two stray messages of
    the watching socket: an offer whose data names no destination and a
    hang-up for bob. *)
Definition call_arrivals : list (arrival string) :=
  [Connects "sA"; Connects "sB"; Receives "sA" (JoinMsg "alice");
   Receives "sB" (JoinMsg "bob"); Connects "sW";
   Receives "sW" (OfferMsg (Data (None, "sdp-stray")));
   Receives "sA" (OfferMsg (Data (Some "bob", "sdp-offer")));
   Receives "sB" (AnswerMsg (Data (Some "alice", "sdp-answer")));
   Receives "sA" (IceCandidateMsg (Data (Some "bob", "candidate")));
   Receives "sW" (HangUpMsg (Data (Some "bob")));
   Receives "sB" (HangUpMsg (Data (Some "alice")));
   Receives "sB" DisconnectMsg].

End Relay.

(** ** The [/proxy] route (the server variant with Express and axios)

    JavaScript strings are modelled by [string], one character per code
    unit; the patterns below are ASCII, so matching them does not depend
    on the encoding of the other characters. *)

Module Proxy.

Local Open Scope string_scope.

(** The double quote character. *)
Definition dq : string := String "034"%char EmptyString.

Fixpoint drop (n : nat) (s : string) : string :=
  match n, s with
  | O, _ => s
  | S _, EmptyString => EmptyString
  | S n', String _ s' => drop n' s'
  end.

(** ECMAScript GetSubstitution for a match without capture groups: in
    the replacement text a dollar sign followed by a dollar sign, an
    ampersand, a backquote or an apostrophe stands for a dollar sign, the
    matched text, the text before the match and the text after it; every
    other character, and every other dollar sign, stands for itself. *)
Fixpoint get_substitution (matched before after template : string) : string :=
  match template with
  | EmptyString => EmptyString
  | String c rest =>
      if Ascii.eqb c "$" then
        match rest with
        | EmptyString => String c EmptyString
        | String d rest' =>
            if Ascii.eqb d "$" then
              String "$" (get_substitution matched before after rest')
            else if Ascii.eqb d "&" then
              matched ++ get_substitution matched before after rest'
            else if Ascii.eqb d "`" then
              before ++ get_substitution matched before after rest'
            else if Ascii.eqb d "'" then
              after ++ get_substitution matched before after rest'
            else String c (get_substitution matched before after rest)
        end
      else String c (get_substitution matched before after rest)
  end.

(** [s.replace(pat, template)] with a string pattern: the first
    occurrence only; [before] is the text already passed. *)
Fixpoint replace_from (before pat template s : string) : string :=
  if prefix pat s then
    let after := drop (String.length pat) s in
    before ++ get_substitution pat before after template ++ after
  else
    match s with
    | EmptyString => before
    | String c s' => replace_from (before ++ String c EmptyString) pat template s'
    end.

Definition replace (pat template s : string) : string :=
  replace_from EmptyString pat template s.

(** [s.replace(/pat/g, template)] for a regular expression that is a
    non-empty literal text: every occurrence, left to right, without
    overlap.  [skip] counts the characters of the current match still to
    pass, [before] is the text already passed. *)
Fixpoint replace_all_from (skip : nat) (before pat template s : string) : string :=
  match s with
  | EmptyString => EmptyString
  | String c s' =>
      match skip with
      | S k => replace_all_from k (before ++ String c EmptyString) pat template s'
      | O =>
          if prefix pat s then
            get_substitution pat before (drop (String.length pat) s) template
            ++ replace_all_from (String.length pat - 1)
                 (before ++ String c EmptyString) pat template s'
          else
            String c
              (replace_all_from 0 (before ++ String c EmptyString) pat template s')
      end
  end.

Definition replace_all (pat template s : string) : string :=
  replace_all_from 0 EmptyString pat template s.

(** *** Occurrences, to state what the replacements do *)

(** [pat] occurs somewhere in [s]. *)
Fixpoint occurs (pat s : string) : bool :=
  prefix pat s ||
  match s with
  | EmptyString => false
  | String _ s' => occurs pat s'
  end.

(** In [a ++ rest], no occurrence of [pat] starts inside [a]. *)
Fixpoint no_match_before (pat a rest : string) : bool :=
  match a with
  | EmptyString => true
  | String _ a' => negb (prefix pat (a ++ rest)) && no_match_before pat a' rest
  end.

(** The text holds no dollar sign, so GetSubstitution leaves it as it is. *)
Fixpoint no_dollar (s : string) : bool :=
  match s with
  | EmptyString => true
  | String c s' => negb (Ascii.eqb c "$") && no_dollar s'
  end.

(** [f] leaves a text without [pat] alone and replaces every occurrence
    of [pat], left to right, by [rep]. *)
Definition replaces_every (pat rep : string) (f : string -> string) : Prop :=
  (forall s, occurs pat s = false -> f s = s)
  /\ (forall a r, no_match_before pat a (pat ++ r) = true ->
                  f (a ++ pat ++ r) = a ++ rep ++ f r).

(** [f] leaves a text without [pat] alone and replaces the first
    occurrence of [pat], and only that one, by [rep]. *)
Definition replaces_first (pat rep : string) (f : string -> string) : Prop :=
  (forall s, occurs pat s = false -> f s = s)
  /\ (forall a r, no_match_before pat a (pat ++ r) = true ->
                  f (a ++ pat ++ r) = a ++ rep ++ r).

(** The options passed to [axios.get]; [timeout] is in milliseconds. *)
Record axios_config : Type :=
  { headers : list (string * string); timeout : N; maxRedirects : N }.

Definition proxy_config : axios_config :=
  {| headers :=
       [("User-Agent",
         "Mozilla/5.0 (Windows NT 10.0; Win64; x64) AppleWebKit/537.36 (KHTML, like Gecko) Chrome/91.0.4472.124 Safari/537.36");
        ("Accept",
         "text/html,application/xhtml+xml,application/xml;q=0.9,image/webp,*/*;q=0.8");
        ("Accept-Language", "en-US,en;q=0.5");
        ("Accept-Encoding", "gzip, deflate, br");
        ("Connection", "keep-alive");
        ("Upgrade-Insecure-Requests", "1")];
     timeout := 10000%N;
     maxRedirects := 5%N |}.

(** [response.data]: axios hands back a string unless the body parsed
    as JSON. *)
Inductive js_data : Type :=
| DString (s : string)
| DNull
| DObject.

(** What the route answers: [res.status(c).json(o)] or [res.send(html)]
    after [res.setHeader('Content-Type', ...)]. *)
Inductive response : Type :=
| res_json (status : nat) (body : list (string * string))
| res_send (status : nat) (content_type : string) (body : string).

(** [html.replace]: a method of strings only. *)
Definition as_html (d : js_data) : outcome string :=
  match d with
  | DString s => Ok s
  | DNull => Throw (TypeError "Cannot read properties of null (reading 'replace')")
  | DObject => Throw (TypeError "html.replace is not a function")
  end.

(** The text the three regular expressions look for, e.g. href= followed
    by a double quote and a slash. *)
Definition root_relative (attr : string) : string := attr ++ "=" ++ dq ++ "/".

(** The template literal that replaces it. *)
Definition absolute (attr baseUrl : string) : string :=
  attr ++ "=" ++ dq ++ baseUrl ++ "/".

Definition base_tag (targetUrl : string) : string :=
  "<head><base href=" ++ dq ++ targetUrl ++ dq ++ ">".

(** Lines 48 to 53: the four rewriting steps. *)
Definition rewrite_html (targetUrl baseUrl html : string) : string :=
  let html := replace_all (root_relative "href") (absolute "href" baseUrl) html in
  let html := replace_all (root_relative "src") (absolute "src" baseUrl) html in
  let html := replace_all (root_relative "action") (absolute "action" baseUrl) html in
  replace "<head>" (base_tag targetUrl) html.

Section Route.
(** The network and the URL parser are the environment:
    [axios_get url config] is how the awaited promise settles (rejected
    with an error message, or resolved with [response.data]), and
    [URL_origin u] is [new URL(u).origin], [None] when the constructor
    throws. *)
Variable axios_get : string -> axios_config -> string + js_data.
Variable URL_origin : string -> option string.

Definition fetch (targetUrl : string) : outcome js_data :=
  match axios_get targetUrl proxy_config with
  | inl msg => Throw (AxiosError msg)
  | inr d => Ok d
  end.

Definition origin_of (targetUrl : string) : outcome string :=
  match URL_origin targetUrl with
  | Some o => Ok o
  | None => Throw (TypeError "Invalid URL")
  end.

(** The [try] block once [targetUrl] is known to be truthy. *)
Definition try_proxy (targetUrl : string) : outcome string :=
  data <- fetch targetUrl ;;
  baseUrl <- origin_of targetUrl ;;
  html <- as_html data ;;
  Ok (rewrite_html targetUrl baseUrl html).

(** [app.get('/proxy', async (req, res) => ...)]; the argument is
    [req.query.url], [None] when the parameter is missing. *)
Definition proxy (query_url : option string) : response :=
  match query_url with
  | None => res_json 400 [("error", "URL parameter is required")]
  | Some targetUrl =>
      if String.eqb targetUrl "" then
        res_json 400 [("error", "URL parameter is required")]
      else
        match try_proxy targetUrl with
        | Ok html => res_send 200 "text/html" html
        | Throw error =>
            res_json 500 [("error", "Failed to fetch website");
                          ("details", message_of error)]
        end
  end.

(** The route as a step of the whole process: the registry and the
    sockets are in scope of the closure, which names neither. *)
Definition app_get_proxy (st : Relay.server) (query_url : option string)
  : Relay.server * response :=
  (st, proxy query_url).
End Route.


(** *** A sample site *)

Definition plain_page : string :=
  "<html><body><a href='/x'>x</a></body></html>".

Definition linked_page : string :=
  "<html><head><link href=" ++ dq ++ "/s.css" ++ dq ++ "></head><body><img src="
  ++ dq ++ "/a.png" ++ dq ++ "><form action=" ++ dq ++ "/go" ++ dq
  ++ "></form></body></html>".

(** A network on which [http://x.org/plain] and [http://x.org/linked]
    answer with the two pages and every other request fails. *)
Definition sample_get (url : string) (config : axios_config) : string + js_data :=
  if String.eqb url "http://x.org/plain" then inr (DString plain_page)
  else if String.eqb url "http://x.org/linked" then inr (DString linked_page)
  else inl "getaddrinfo ENOTFOUND".

Definition sample_origin (url : string) : option string :=
  if prefix "http://x.org/" url then Some "http://x.org" else None.

End Proxy.

(** * Facts *)

(** ** Objects *)

Module JsObjectFacts.
Import JsObject.

Section Facts.
Context {V : Type}.
Implicit Types (o : list (string * V)) (k : string) (v : V).

Lemma get_set_eq k v o : get k (set k v o) = Some v.
Proof.
  induction o as [|[k' v'] o IH]; simpl.
  - now rewrite String.eqb_refl.
  - destruct (String.eqb_spec k' k) as [->|Hne]; simpl.
    + now rewrite String.eqb_refl.
    + destruct (String.eqb_spec k' k); [contradiction | exact IH].
Qed.

Lemma get_set_ne k k' v o : k <> k' -> get k' (set k v o) = get k' o.
Proof.
  intros Hne. induction o as [|[k0 v0] o IH]; simpl.
  - destruct (String.eqb_spec k k'); [contradiction | reflexivity].
  - destruct (String.eqb_spec k0 k) as [->|H0]; simpl.
    + destruct (String.eqb_spec k k'); [contradiction | reflexivity].
    + now rewrite IH.
Qed.

Lemma get_none_iff k o : get k o = None <-> ~ In k (keys o).
Proof.
  induction o as [|[k' v'] o IH]; simpl.
  - tauto.
  - destruct (String.eqb_spec k' k) as [->|Hne].
    + split; [discriminate | intros H; exfalso; apply H; now left].
    + rewrite IH. split; [intros H [E|I]; [congruence | tauto] | tauto].
Qed.

Lemma get_key_some k o : In k (keys o) -> exists v, get k o = Some v.
Proof.
  intros Hin. destruct (get k o) as [v|] eqn:E; [now exists v|].
  apply get_none_iff in E. contradiction.
Qed.

Lemma get_some_key k v o : get k o = Some v -> In k (keys o).
Proof.
  intros E. destruct (in_dec string_dec k (keys o)) as [I|N]; [exact I|].
  apply get_none_iff in N. congruence.
Qed.

Lemma get_some_in k v o : get k o = Some v -> In (k, v) o.
Proof.
  induction o as [|[k' v'] o IH]; simpl; [discriminate|].
  destruct (String.eqb_spec k' k) as [->|Hne].
  - intros [= ->]. now left.
  - intros E. right. now apply IH.
Qed.

Lemma in_get_some k v o : NoDup (keys o) -> In (k, v) o -> get k o = Some v.
Proof.
  induction o as [|[k' v'] o IH]; simpl; [tauto|].
  intros Hnd [E|I].
  - injection E as -> ->. now rewrite String.eqb_refl.
  - inversion Hnd as [|? ? Hnot Hnd']; subst.
    destruct (String.eqb_spec k' k) as [->|Hne].
    + exfalso. apply Hnot. unfold keys. now apply (in_map fst) in I.
    + now apply IH.
Qed.

Lemma keys_set_present k v o : In k (keys o) -> keys (set k v o) = keys o.
Proof.
  induction o as [|[k' v'] o IH]; simpl; [tauto|].
  destruct (String.eqb_spec k' k) as [->|Hne]; simpl; [reflexivity|].
  intros [E|I]; [contradiction|]. now rewrite IH.
Qed.

Lemma keys_set_fresh k v o : ~ In k (keys o) -> keys (set k v o) = keys o ++ [k].
Proof.
  induction o as [|[k' v'] o IH]; simpl; [reflexivity|].
  destruct (String.eqb_spec k' k) as [->|Hne]; simpl; [tauto|].
  intros H. rewrite IH; tauto.
Qed.

Lemma in_keys_set k k' v o : In k' (keys (set k v o)) <-> k' = k \/ In k' (keys o).
Proof.
  destruct (in_dec string_dec k (keys o)) as [I|N].
  - rewrite keys_set_present by exact I. split; [tauto | intros [->|H]; tauto].
  - rewrite keys_set_fresh by exact N. rewrite in_app_iff. simpl.
    split; [intros [H|[H|[]]]; auto | intros [->|H]; auto].
Qed.

Lemma NoDup_keys_set k v o : NoDup (keys o) -> NoDup (keys (set k v o)).
Proof.
  intros Hnd. destruct (in_dec string_dec k (keys o)) as [I|N].
  - now rewrite keys_set_present.
  - rewrite keys_set_fresh by exact N.
    apply NoDup_app; [exact Hnd | repeat constructor; simpl; tauto |].
    intros x Hx [<-|[]]. contradiction.
Qed.

Lemma delete_absent k o : get k o = None -> delete k o = o.
Proof.
  induction o as [|[k' v'] o IH]; simpl; [reflexivity|].
  destruct (String.eqb_spec k' k); [discriminate|].
  intros E. now rewrite IH.
Qed.

Lemma get_delete_eq k o : get k (delete k o) = None.
Proof.
  induction o as [|[k' v'] o IH]; simpl; [reflexivity|].
  destruct (String.eqb_spec k' k) as [->|Hne]; simpl; [exact IH|].
  destruct (String.eqb_spec k' k); [contradiction | exact IH].
Qed.

Lemma get_delete_ne k k' o : k <> k' -> get k' (delete k o) = get k' o.
Proof.
  intros Hne. induction o as [|[k0 v0] o IH]; simpl; [reflexivity|].
  destruct (String.eqb_spec k0 k) as [->|H0]; simpl.
  - destruct (String.eqb_spec k k'); [contradiction | exact IH].
  - now rewrite IH.
Qed.

Lemma in_delete k x o : In x (delete k o) <-> In x o /\ fst x <> k.
Proof.
  induction o as [|[k' v'] o IH]; simpl; [tauto|].
  destruct (String.eqb_spec k' k) as [->|Hne]; simpl; rewrite IH.
  - split; [tauto|]. intros [[<-|I] H]; [simpl in H; contradiction | tauto].
  - split; [intros [<-|[I H]]; simpl; tauto | tauto].
Qed.

Lemma in_keys_delete k k' o : In k' (keys (delete k o)) <-> In k' (keys o) /\ k' <> k.
Proof.
  unfold keys. rewrite !in_map_iff. split.
  - intros (x & <- & Hx). apply in_delete in Hx. split; [exists x|]; tauto.
  - intros ((x & <- & Hx) & Hne). exists x. split; [reflexivity|].
    apply in_delete. tauto.
Qed.

Lemma NoDup_keys_delete k o : NoDup (keys o) -> NoDup (keys (delete k o)).
Proof.
  induction o as [|[k' v'] o IH]; simpl; [trivial|].
  intros Hnd. inversion Hnd as [|? ? Hnot Hnd']; subst.
  destruct (String.eqb_spec k' k) as [->|Hne]; simpl; [now apply IH|].
  constructor; [|now apply IH].
  intros Hin. apply in_keys_delete in Hin. tauto.
Qed.
End Facts.

Example array_index_keys :
  map is_array_index ["0"; "7"; "4294967294"; "01"; "4294967295"; "12a"; ""; "sA"]
  = [true; true; true; false; false; false; false; false].
Proof. reflexivity. Qed.

Example set_keeps_place :
  set "b" 9 [("a", 1); ("b", 2); ("c", 3)] = [("a", 1); ("b", 9); ("c", 3)]
  /\ set "d" 4 [("a", 1); ("b", 2); ("c", 3)]
     = [("a", 1); ("b", 2); ("c", 3); ("d", 4)]
  /\ delete "z" [("a", 1); ("b", 2)] = [("a", 1); ("b", 2)].
Proof. repeat split; reflexivity. Qed.

End JsObjectFacts.

(** ** The relay *)

Module RelayFacts.
Import JsObject JsObjectFacts Relay.

(** The five negotiation handlers are [relay] applied to the event they
    build. *)
Ltac unfold_handlers :=
  unfold on_offer, on_answer, on_ice_candidate, on_reject_call, on_hang_up,
    sender_name.

(** Case analysis on a negotiation event, the other two events excluded
    by [Hd : destination ev = Some to]. *)
Ltac negotiation_cases ev Hd :=
  destruct ev; simpl in Hd; try discriminate; injection Hd as ->; simpl.

(** *** Resolving a display name *)

Lemma find_split {A : Type} (f : A -> bool) (l : list A) (x : A) :
  find f l = Some x ->
  exists l1 l2, l = l1 ++ x :: l2 /\ f x = true /\ forall y, In y l1 -> f y = false.
Proof.
  induction l as [|a l IH]; simpl; [discriminate|].
  destruct (f a) eqn:Fa.
  - intros [= ->]. exists [], l. simpl. tauto.
  - intros E. destruct (IH E) as (l1 & l2 & -> & Fx & Hl1).
    exists (a :: l1), l2. simpl. repeat split; trivial.
    intros y [<-|Hy]; auto.
Qed.

Lemma find_socket_some users to k :
  find_socket users to = Some k ->
  In k (keys users) /\ exists u, get k users = Some u /\ username u = to.
Proof.
  unfold find_socket. intros E. apply find_some in E. destruct E as [Hin Hf].
  split; [exact Hin|].
  destruct (get k users) as [u|]; [|discriminate].
  exists u. split; [reflexivity|]. now apply String.eqb_eq.
Qed.

Lemma find_socket_none users to :
  find_socket users to = None <->
  forall k u, get k users = Some u -> username u <> to.
Proof.
  unfold find_socket. split.
  - intros E k u Hget Hname.
    pose proof (find_none _ _ E k (get_some_key _ _ _ Hget)) as Hf.
    simpl in Hf. rewrite Hget in Hf. apply String.eqb_neq in Hf. contradiction.
  - intros H. destruct (find _ _) as [k|] eqn:E; [|reflexivity].
    apply find_socket_some in E. destruct E as (_ & u & Hget & Hname).
    exfalso. exact (H k u Hget Hname).
Qed.

Lemma find_socket_unique users to k u :
  get k users = Some u -> username u = to ->
  (forall k' u', get k' users = Some u' -> username u' = to -> k' = k) ->
  find_socket users to = Some k.
Proof.
  intros Hget Hname Huniq.
  destruct (find_socket users to) as [k'|] eqn:E.
  - apply find_socket_some in E. destruct E as (_ & u' & Hget' & Hname').
    f_equal. now apply (Huniq k' u').
  - exfalso. exact (proj1 (find_socket_none _ _) E k u Hget Hname).
Qed.

(** The resolved key is the first one, in own-property order, whose record
    carries the name. *)
Lemma find_socket_first users to k :
  find_socket users to = Some k ->
  exists before after,
    keys users = before ++ k :: after /\
    forall k' u', In k' before -> get k' users = Some u' -> username u' <> to.
Proof.
  unfold find_socket. intros E. apply find_split in E.
  destruct E as (l1 & l2 & Hk & _ & Hl1). exists l1, l2. split; [exact Hk|].
  intros k' u' Hin Hget Hname. specialize (Hl1 k' Hin). simpl in Hl1.
  rewrite Hget in Hl1. apply String.eqb_neq in Hl1. contradiction.
Qed.

Lemma find_in_entries users to (l : list (string * user)) :
  (forall kv, In kv l -> get (fst kv) users = Some (snd kv)) ->
  find (fun key =>
          match get key users with
          | Some u => String.eqb (username u) to
          | None => false
          end) (map fst l)
  = option_map fst (hd_error (holders l to)).
Proof.
  induction l as [|[k u] l IH]; intros Hall; simpl; [reflexivity|].
  pose proof (Hall (k, u) (or_introl eq_refl)) as Hk. simpl in Hk.
  rewrite Hk. destruct (String.eqb (username u) to); [reflexivity|].
  apply IH. intros kv Hin. apply Hall. now right.
Qed.

(** With one property per key, resolving a name yields the key of its
    first holder. *)
Lemma find_socket_holders users to :
  NoDup (keys users) ->
  find_socket users to = option_map fst (hd_error (holders users to)).
Proof.
  intros Hnd. apply find_in_entries. intros [k u] Hin. now apply in_get_some.
Qed.

Lemma holders_in users to k u :
  In (k, u) (holders users to) <-> In (k, u) users /\ username u = to.
Proof.
  unfold holders. rewrite filter_In. simpl. now rewrite String.eqb_eq.
Qed.

Lemma holders_nil users to :
  holders users to = [] -> find_socket users to = None.
Proof.
  intros H. apply find_socket_none. intros k u Hget Hname.
  assert (Hin : In (k, u) (holders users to)).
  { apply holders_in. split; [now apply get_some_in | exact Hname]. }
  rewrite H in Hin. contradiction.
Qed.

Section WithPayload.
Context {Payload : Type}.
Implicit Types (st : server) (sid to : string) (ev : client_event Payload)
  (i : input Payload) (tr : list (input Payload)).

Lemma connected_iff st sid : connected st sid = true <-> In sid (sockets st).
Proof.
  unfold connected. rewrite existsb_exists. split.
  - intros (x & Hx & E). apply String.eqb_eq in E. now subst.
  - intros H. exists sid. split; [exact H | apply String.eqb_refl].
Qed.

(** *** socket.io delivery *)

Lemma filter_room_absent (socks : list string) sender room :
  ~ In room socks ->
  filter (fun s => String.eqb s room && negb (String.eqb s sender)) socks = [].
Proof.
  induction socks as [|s socks IH]; simpl; [reflexivity|].
  intros Hnot. destruct (String.eqb_spec s room) as [->|Hne]; simpl.
  - exfalso. apply Hnot. now left.
  - apply IH. tauto.
Qed.

Lemma recipients_unicast (socks : list string) sender room (e : server_event Payload) :
  NoDup socks -> In room socks -> room <> sender ->
  recipients socks (socket_to_emit sender room e) = [room].
Proof.
  intros Hnd Hin Hne. simpl. induction socks as [|s socks IH]; [contradiction|].
  inversion Hnd as [|? ? Hnot Hnd']; subst. simpl.
  destruct (String.eqb_spec s room) as [->|Hsr]; simpl.
  - destruct (String.eqb_spec room sender); [contradiction|]. simpl. f_equal.
    now apply filter_room_absent.
  - destruct Hin as [E|Hin]; [contradiction|]. now apply IH.
Qed.

Lemma recipients_not_sender (socks : list string) sender room (e : server_event Payload) :
  ~ In sender (recipients socks (socket_to_emit sender room e)).
Proof.
  simpl. intros H. apply filter_In in H. destruct H as [_ H].
  rewrite String.eqb_refl in H. simpl in H. rewrite andb_false_r in H. discriminate.
Qed.

Lemma recipients_self (socks : list string) sender (e : server_event Payload) :
  recipients socks (socket_to_emit sender sender e) = [].
Proof.
  simpl. induction socks as [|s socks IH]; [reflexivity|]. simpl.
  destruct (String.eqb s sender); simpl; exact IH.
Qed.

(** *** The handlers and the state *)

Lemma relay_cases st sid to (mk : outcome (server_event Payload)) :
  (find_socket (users st) to = None /\ relay st sid to mk = Ok [])
  \/ (find_socket (users st) to = Some "" /\ relay st sid to mk = Ok [])
  \/ (exists room, room <> "" /\ find_socket (users st) to = Some room /\
        relay st sid to mk = (e <- mk ;; Ok [socket_to_emit sid room e])).
Proof.
  unfold relay. destruct (find_socket (users st) to) as [room|]; simpl; [|now left].
  right. destruct (String.eqb_spec room "") as [->|Hne]; simpl.
  - now left.
  - right. exists room. auto.
Qed.

Lemma handle_negotiation_state st sid ev to st' out :
  destination ev = Some to -> handle st sid ev = Ok (st', out) -> st' = st.
Proof.
  destruct ev; simpl; try discriminate; intros _ H;
    match type of H with
    | bind ?m _ = _ => destruct m; simpl in H; [now injection H | discriminate]
    end.
Qed.
(** *** The invariant along a run *)

Lemma wf_init : wf init.
Proof. constructor; simpl; try constructor; try tauto; discriminate. Qed.

Lemma admissible_connection st sid :
  admissible (Payload := Payload) st (Connection sid) = true ->
  sid <> "" /\ is_array_index sid = false /\ ~ In sid (sockets st).
Proof.
  simpl. rewrite !andb_true_iff, !negb_true_iff.
  intros [[Hne Hidx] Hfresh]. apply String.eqb_neq in Hne.
  repeat split; trivial. intros H. apply connected_iff in H. congruence.
Qed.

Lemma step_negotiation st sid ev to :
  destination ev = Some to -> step st (Event sid ev) = handle st sid ev.
Proof. destruct ev; simpl; try discriminate; reflexivity. Qed.

Lemma wf_step st i st' out :
  wf st -> admissible st i = true -> step st i = Ok (st', out) -> wf st'.
Proof.
  intros [Hs He Hn Hk Hc Hi] Hadm Hstep. destruct i as [sid|sid ev].
  - apply admissible_connection in Hadm. destruct Hadm as (Hne & Hidx & Hnot).
    simpl in Hstep. injection Hstep as <- <-.
    constructor; simpl; trivial.
    + apply NoDup_app; [exact Hs | repeat constructor; simpl; tauto |].
      intros x Hx [<-|[]]. contradiction.
    + rewrite in_app_iff. simpl. intros [H|[H|[]]]; [tauto | congruence].
    + intros s. rewrite in_app_iff. simpl. intros [H|[<-|[]]]; auto.
    + intros k Hin. apply in_app_iff. left. now apply Hc.
  - simpl in Hadm. apply connected_iff in Hadm.
    destruct (destination ev) as [to|] eqn:Hd.
    + rewrite (step_negotiation _ _ _ _ Hd) in Hstep.
      apply (handle_negotiation_state _ _ _ _ _ _ Hd) in Hstep. subst st'.
      now constructor.
    + destruct ev; simpl in Hd; try discriminate; simpl in Hstep;
        injection Hstep as <- <-.
      * constructor; simpl; trivial.
        -- now apply NoDup_keys_set.
        -- intros k Hin. apply in_keys_set in Hin. destruct Hin as [->|Hin]; auto.
        -- intros k u. destruct (string_dec sid k) as [->|Hne].
           ++ rewrite get_set_eq. now intros [= <-].
           ++ rewrite get_set_ne by exact Hne. apply Hi.
      * constructor; simpl.
        -- now apply NoDup_filter.
        -- intros H. apply filter_In in H. tauto.
        -- intros s H. apply filter_In in H. apply Hn. tauto.
        -- now apply NoDup_keys_delete.
        -- intros k Hin. apply in_keys_delete in Hin. destruct Hin as [Hin Hne].
           apply filter_In. split; [now apply Hc|].
           apply negb_true_iff. now apply String.eqb_neq.
        -- intros k u. destruct (string_dec sid k) as [->|Hne].
           ++ rewrite get_delete_eq. discriminate.
           ++ rewrite get_delete_ne by exact Hne. apply Hi.
Qed.

Lemma run_app st tr1 tr2 :
  run st (tr1 ++ tr2) =
  (r1 <- run st tr1 ;; r2 <- run (fst r1) tr2 ;; Ok (fst r2, snd r1 ++ snd r2)).
Proof.
  revert st. induction tr1 as [|i tr1 IH]; intros st; simpl.
  - destruct (run st tr2) as [[st2 o2]|e]; reflexivity.
  - destruct (step st i) as [[st1 o1]|e]; simpl; [|reflexivity].
    rewrite IH. destruct (run st1 tr1) as [[st2 o2]|e]; simpl; [|reflexivity].
    destruct (run st2 tr2) as [[st3 o3]|e]; simpl; [|reflexivity].
    now rewrite app_assoc.
Qed.

Lemma run_snoc st tr i st' out' :
  run st (tr ++ [i]) = Ok (st', out') ->
  exists st1 out1 out2,
    run st tr = Ok (st1, out1) /\ step st1 i = Ok (st', out2) /\
    out' = out1 ++ out2.
Proof.
  rewrite run_app. destruct (run st tr) as [[st1 out1]|e]; simpl; [|discriminate].
  destruct (step st1 i) as [[st2 out2]|e] eqn:Hstep; simpl; [|discriminate].
  intros [= <- <-]. exists st1, out1, out2. now rewrite app_nil_r.
Qed.

Lemma admissible_trace_snoc st tr i :
  admissible_trace st (tr ++ [i]) = true ->
  admissible_trace st tr = true /\
  forall st1 out1, run st tr = Ok (st1, out1) -> admissible st1 i = true.
Proof.
  revert st. induction tr as [|j tr IH]; intros st; simpl.
  - rewrite andb_true_iff. intros [H _]. split; [reflexivity|].
    now intros st1 out1 [= <- _].
  - rewrite !andb_true_iff. intros [Hj H].
    destruct (step st j) as [[st1 o1]|e]; simpl in *.
    + destruct (IH _ H) as [H1 H2]. split; [tauto|].
      intros st2 out2 E. destruct (run st1 tr) as [[st3 o3]|e]; simpl in E;
        [|discriminate].
      injection E as <- _. now apply (H2 st3 o3).
    + split; [tauto | discriminate].
Qed.

Lemma wf_run tr : forall st st' out,
  wf st -> admissible_trace st tr = true -> run st tr = Ok (st', out) -> wf st'.
Proof.
  induction tr as [|i tr IH]; intros st st' out Hwf Hadm Hrun; simpl in *.
  - now injection Hrun as <- _.
  - apply andb_true_iff in Hadm. destruct Hadm as [Hi Hadm].
    destruct (step st i) as [[st1 o1]|e] eqn:Hstep; simpl in *; [|discriminate].
    destruct (run st1 tr) as [[st2 o2]|e] eqn:Hrun'; simpl in *; [|discriminate].
    injection Hrun as <- _.
    eapply IH; [eapply wf_step; eassumption | eassumption | eassumption].
Qed.

Lemma reachable_wf st : reachable (Payload := Payload) st -> wf st.
Proof.
  intros (tr & out & Hadm & Hrun). exact (wf_run _ _ _ _ wf_init Hadm Hrun).
Qed.

Lemma presence_step_ok st i :
  is_presence_input i = true -> exists r, step st i = Ok r.
Proof.
  destruct i as [sid|sid ev]; simpl; [eauto|].
  destruct ev; simpl; try discriminate; eauto.
Qed.

Lemma presence_run_ok tr : forall st,
  forallb is_presence_input tr = true -> exists r, run st tr = Ok r.
Proof.
  induction tr as [|i tr IH]; intros st H; simpl in *; [eauto|].
  apply andb_true_iff in H. destruct H as [Hi H].
  destruct (presence_step_ok st i Hi) as [[st1 o1] ->]. simpl.
  destruct (IH st1 H) as [[st2 o2] ->]. simpl. eauto.
Qed.

(** *** A run against what its trace says *)

Lemma display_name_snoc tr i k :
  display_name (tr ++ [i]) k = name_step k (display_name tr k) i.
Proof. unfold display_name. now rewrite fold_left_app. Qed.

Lemma online_snoc tr i k :
  online (tr ++ [i]) k = online_step k (online tr k) i.
Proof. unfold online. now rewrite fold_left_app. Qed.

Lemma last_snapshot_app (l1 l2 : list (emit Payload)) :
  last_snapshot (l1 ++ l2) =
  match last_snapshot l2 with
  | Some s => Some s
  | None => last_snapshot l1
  end.
Proof.
  induction l1 as [|a l1 IH]; simpl.
  - now destruct (last_snapshot l2).
  - rewrite IH. now destruct (last_snapshot l2).
Qed.

Lemma relay_no_snapshot st sid to (mk : outcome (server_event Payload)) out :
  relay st sid to mk = Ok out -> last_snapshot out = None.
Proof.
  destruct (relay_cases st sid to mk) as [[_ ->]|[[_ ->]|(room & _ & _ & ->)]];
    try (now intros [= <-]).
  destruct mk as [e|e]; simpl; [now intros [= <-] | discriminate].
Qed.

Lemma negotiation_no_snapshot st sid ev to st' out :
  destination ev = Some to -> handle st sid ev = Ok (st', out) ->
  last_snapshot out = None.
Proof.
  destruct ev; simpl; try discriminate; intros _ H;
    match type of H with
    | bind ?m _ = _ =>
        destruct m eqn:E; simpl in H; [injection H as _ <- | discriminate]
    end;
    eapply relay_no_snapshot; eassumption.
Qed.

Lemma run_tracks tr : forall st out,
  admissible_trace init tr = true -> run init tr = Ok (st, out) ->
  wf st
  /\ (forall s, In s (sockets st) <-> online tr s = true)
  /\ (forall k, get k (users st) =
                option_map (fun n => {| username := n; id := k |})
                           (display_name tr k))
  /\ last_snapshot out =
     (if existsb is_mutation tr then Some (values (users st)) else None).
Proof.
  induction tr as [|i tr IH] using rev_ind; intros st out Hadm Hrun.
  - simpl in Hrun. injection Hrun as <- <-. split; [exact wf_init|].
    simpl. repeat split; try tauto; try discriminate.
  - apply admissible_trace_snoc in Hadm. destruct Hadm as [Hadm Hi].
    apply run_snoc in Hrun. destruct Hrun as (st1 & o1 & o2 & Hrun & Hstep & ->).
    specialize (Hi _ _ Hrun).
    destruct (IH _ _ Hadm Hrun) as (Hwf & Hon & Hus & Hsnap).
    split; [eapply wf_step; eassumption|].
    rewrite last_snapshot_app, existsb_app, Hsnap. simpl existsb.
    rewrite orb_false_r.
    destruct i as [sid|sid ev].
    + (* a new connection *)
      simpl in Hstep. injection Hstep as <- <-.
      apply admissible_connection in Hi. destruct Hi as (_ & _ & Hnot).
      simpl. rewrite orb_false_r. repeat split.
      * rewrite online_snoc. unfold online_step. simpl.
        rewrite in_app_iff. simpl. intros [H|[<-|[]]].
        -- destruct (String.eqb sid s); [reflexivity | now apply Hon].
        -- now rewrite String.eqb_refl.
      * rewrite online_snoc. unfold online_step. simpl.
        rewrite in_app_iff. simpl.
        destruct (String.eqb_spec sid s) as [->|Hne]; [auto|].
        intros H. left. now apply Hon.
      * intros k. rewrite display_name_snoc. unfold name_step. simpl.
        destruct (String.eqb_spec sid k) as [->|Hne]; [|apply Hus].
        simpl. apply get_none_iff. intros H. apply Hnot.
        now apply (wf_users_connected _ Hwf).
    + destruct (destination ev) as [to|] eqn:Hd.
      * (* a negotiation event: the state stays *)
        rewrite (step_negotiation _ _ _ _ Hd) in Hstep.
        pose proof (negotiation_no_snapshot _ _ _ _ _ _ Hd Hstep) as Hno.
        apply (handle_negotiation_state _ _ _ _ _ _ Hd) in Hstep. subst st.
        rewrite Hno.
        assert (Hmut : is_mutation (Event sid ev) = false)
          by (destruct ev; simpl in Hd; try discriminate; reflexivity).
        rewrite Hmut, orb_false_r.
        repeat split.
        -- rewrite online_snoc. unfold online_step. simpl.
           destruct (String.eqb sid s), ev; simpl in Hd; try discriminate;
             now apply Hon.
        -- rewrite online_snoc. unfold online_step. simpl.
           destruct (String.eqb sid s), ev; simpl in Hd; try discriminate;
             now apply Hon.
        -- intros k. rewrite display_name_snoc. unfold name_step. simpl.
           destruct (String.eqb sid k), ev; simpl in Hd; try discriminate;
             apply Hus.
      * destruct ev; simpl in Hd; try discriminate; simpl in Hstep;
          injection Hstep as <- <-; simpl; rewrite orb_true_r.
        -- (* join *)
           repeat split.
           ++ rewrite online_snoc. unfold online_step. simpl.
              destruct (String.eqb sid s); now apply Hon.
           ++ rewrite online_snoc. unfold online_step. simpl.
              destruct (String.eqb sid s); now apply Hon.
           ++ intros k. rewrite display_name_snoc. unfold name_step. simpl.
              destruct (String.eqb_spec sid k) as [->|Hne].
              ** now rewrite get_set_eq.
              ** rewrite get_set_ne by exact Hne. apply Hus.
        -- (* disconnect *)
           repeat split.
           ++ rewrite online_snoc. unfold online_step. simpl.
              intros H. apply filter_In in H. destruct H as [H Hne].
              apply negb_true_iff, String.eqb_neq in Hne.
              destruct (String.eqb_spec sid s) as [->|_]; [congruence|].
              now apply Hon.
           ++ rewrite online_snoc. unfold online_step. simpl.
              destruct (String.eqb_spec sid s) as [->|Hne]; [discriminate|].
              intros H. apply filter_In. split; [now apply Hon|].
              apply negb_true_iff, String.eqb_neq. congruence.
           ++ intros k. rewrite display_name_snoc. unfold name_step. simpl.
              destruct (String.eqb_spec sid k) as [->|Hne].
              ** now rewrite get_delete_eq.
              ** rewrite get_delete_ne by exact Hne. apply Hus.
Qed.

(** *** Resolved destinations *)

Lemma resolved_room st to room :
  wf st -> find_socket (users st) to = Some room ->
  room <> "" /\ In room (sockets st) /\
  exists u, get room (users st) = Some u /\ username u = to.
Proof.
  intros Hwf E. apply find_socket_some in E. destruct E as (Hin & Hu).
  pose proof (wf_users_connected _ Hwf _ Hin) as Hs.
  repeat split; trivial. intros ->. exact (wf_sockets_nonempty _ Hwf Hs).
Qed.

Lemma relay_resolved st sid to room (mk : outcome (server_event Payload)) :
  wf st -> find_socket (users st) to = Some room ->
  relay st sid to mk = (e <- mk ;; Ok [socket_to_emit sid room e]).
Proof.
  intros Hwf E. destruct (resolved_room _ _ _ Hwf E) as (Hne & _).
  unfold relay. rewrite E. simpl.
  destruct (String.eqb_spec room ""); [contradiction | reflexivity].
Qed.

Lemma deliveries_one (socks : list string) (a : emit Payload) :
  deliveries socks [a] = deliver socks a.
Proof. unfold deliveries. simpl. apply app_nil_r. Qed.

Lemma deliveries_unicast st sid room (e : server_event Payload) :
  wf st -> In room (sockets st) -> room <> sid ->
  deliveries (sockets st) [socket_to_emit sid room e] = [(room, e)].
Proof.
  intros Hwf Hin Hne. rewrite deliveries_one. unfold deliver.
  rewrite recipients_unicast; trivial. exact (wf_sockets_nodup _ Hwf).
Qed.

Lemma deliveries_self (socks : list string) sid (e : server_event Payload) :
  deliveries socks [socket_to_emit sid sid e] = [].
Proof. rewrite deliveries_one. unfold deliver. now rewrite recipients_self. Qed.

(** A negotiation handler emits nothing, or one [socket.to(room).emit]
    whose sender is the handling socket. *)
Lemma negotiation_out st sid ev to st' out :
  destination ev = Some to -> handle st sid ev = Ok (st', out) ->
  out = [] \/ exists room e, out = [socket_to_emit sid room e].
Proof.
  intros Hd H.
  assert (Hrel : exists mk, relay st sid to mk = Ok out).
  { destruct ev; simpl in Hd; try discriminate; injection Hd as ->;
      simpl in H;
      match type of H with
      | bind ?m _ = _ =>
          destruct m eqn:E; simpl in H; [injection H as _ <- | discriminate]
      end; eexists; exact E. }
  destruct Hrel as (mk & Hrel).
  destruct (relay_cases st sid to mk) as [[_ E]|[[_ E]|(room & _ & _ & E)]];
    rewrite E in Hrel.
  - left. now injection Hrel.
  - left. now injection Hrel.
  - right. destruct mk as [e|e]; simpl in Hrel; [|discriminate].
    injection Hrel as <-. eauto.
Qed.

(** What the five handlers emit for a joined sender and a resolved
    destination, and whom the emit reaches. *)
Lemma joined_sender_emits st sid to room u :
  wf st ->
  get sid (users st) = Some u ->
  find_socket (users st) to = Some room ->
  (forall p : Payload, handle st sid (Offer to p)
             = Ok (st, [socket_to_emit sid room (offer (username u) p)]))
  /\ (forall p : Payload, handle st sid (Answer to p)
                = Ok (st, [socket_to_emit sid room (answer (username u) p)]))
  /\ (forall p : Payload, handle st sid (IceCandidate to p)
                = Ok (st, [socket_to_emit sid room (ice_candidate (username u) p)]))
  /\ handle (Payload := Payload) st sid (RejectCall to)
     = Ok (st, [socket_to_emit sid room (call_rejected (username u))])
  /\ handle (Payload := Payload) st sid (HangUp to)
     = Ok (st, [socket_to_emit sid room hang_up])
  /\ (forall e : server_event Payload,
        deliveries (sockets st) [socket_to_emit sid room e]
        = if String.eqb room sid then [] else [(room, e)]).
Proof.
  intros Hwf Hsid Hfind.
  assert (Hdel : forall e : server_event Payload,
             deliveries (sockets st) [socket_to_emit sid room e]
             = if String.eqb room sid then [] else [(room, e)]).
  { intros e. destruct (String.eqb_spec room sid) as [->|Hne].
    - apply deliveries_self.
    - destruct (resolved_room _ _ _ Hwf Hfind) as (_ & Hsock & _).
      now apply deliveries_unicast. }
  repeat (split; [try intros p; simpl;
    unfold_handlers;
    rewrite ?(relay_resolved _ _ _ _ _ Hwf Hfind), ?Hsid; reflexivity|]).
  exact Hdel.
Qed.

(** *** The claims *)

(** C2 (unicast isolation).  In a reachable state where the sender [A]
    is registered as alice and the registry entries named bob are exactly
    the one of connection [B], the offer handler makes one
    [socket.to(B).emit] carrying [from] alice and the payload as given,
    and socket.io delivers it to [B] and to nobody else. *)
Theorem unicast_isolation st A B uA uB (P : Payload) :
  reachable (Payload := Payload) st ->
  get A (users st) = Some uA -> username uA = "alice" ->
  holders (users st) "bob" = [(B, uB)] ->
  handle st A (Offer "bob" P) = Ok (st, [socket_to_emit A B (offer "alice" P)])
  /\ deliveries (sockets st) [socket_to_emit A B (offer "alice" P)]
     = [(B, offer "alice" P)]
  /\ (forall C e,
        C <> B ->
        ~ In (C, e)
             (deliveries (sockets st) [socket_to_emit A B (offer "alice" P)])).
Proof.
  intros Hreach HA HnA Hbob. pose proof (reachable_wf _ Hreach) as Hwf.
  assert (Hfind : find_socket (users st) "bob" = Some B).
  { rewrite find_socket_holders by exact (wf_users_nodup _ Hwf).
    now rewrite Hbob. }
  assert (HB : In (B, uB) (users st) /\ username uB = "bob").
  { apply holders_in. rewrite Hbob. now left. }
  destruct HB as [HinB HnB].
  apply (in_get_some _ _ _ (wf_users_nodup _ Hwf)) in HinB.
  assert (Hne : B <> A).
  { intros ->. rewrite HA in HinB. injection HinB as ->. congruence. }
  destruct (resolved_room _ _ _ Hwf Hfind) as (_ & Hsock & _).
  pose proof (deliveries_unicast st A B (offer "alice" P) Hwf Hsock Hne) as Hdel.
  split; [|split; [exact Hdel|]].
  - simpl. unfold_handlers.
    rewrite (relay_resolved _ _ _ _ _ Hwf Hfind), HA. simpl. now rewrite HnA.
  - intros C e HC Hin. rewrite Hdel in Hin. destruct Hin as [[= -> _]|[]].
    now apply HC.
Qed.

(** C3 (silent drop).  A negotiation event of any of the five kinds whose
    destination name has no holder in the registry ends normally, emits
    nothing and returns the state it was given. *)
Theorem silent_drop st sid ev to :
  destination ev = Some to ->
  holders (users st) to = [] ->
  handle st sid ev = Ok (st, []) /\ step st (Event sid ev) = Ok (st, []).
Proof.
  intros Hd Hnone. apply holders_nil in Hnone.
  assert (H : handle st sid ev = Ok (st, [])).
  { negotiation_cases ev Hd; unfold_handlers; unfold relay; now rewrite Hnone. }
  split; [exact H|]. now rewrite (step_negotiation _ _ _ _ Hd).
Qed.

(** C5, amended.  In a reachable state, when the sender has joined and
    the destination resolves to [room], the offer, answer, ice-candidate
    and reject-call handlers emit to [room] an event whose [from] is the
    sender's display name, with the payload as given; the hang-up handler
    emits the bare hang-up event, which has no [from].  The emit reaches
    [room] alone, or nobody when [room] is the sender. *)
Theorem forwarded_from_sender st sid to room u :
  reachable (Payload := Payload) st ->
  get sid (users st) = Some u ->
  find_socket (users st) to = Some room ->
  (forall p : Payload, handle st sid (Offer to p)
             = Ok (st, [socket_to_emit sid room (offer (username u) p)]))
  /\ (forall p : Payload, handle st sid (Answer to p)
                = Ok (st, [socket_to_emit sid room (answer (username u) p)]))
  /\ (forall p : Payload, handle st sid (IceCandidate to p)
                = Ok (st, [socket_to_emit sid room (ice_candidate (username u) p)]))
  /\ handle (Payload := Payload) st sid (RejectCall to)
     = Ok (st, [socket_to_emit sid room (call_rejected (username u))])
  /\ handle (Payload := Payload) st sid (HangUp to)
     = Ok (st, [socket_to_emit sid room hang_up])
  /\ from_of (hang_up (Payload := Payload)) = None
  /\ (forall e : server_event Payload,
        deliveries (sockets st) [socket_to_emit sid room e]
        = if String.eqb room sid then [] else [(room, e)]).
Proof.
  intros Hreach Hsid Hfind. pose proof (reachable_wf _ Hreach) as Hwf.
  destruct (joined_sender_emits st sid to room u Hwf Hsid Hfind)
    as (Ho & Ha & Hi & Hr & Hh & Hdel).
  repeat (split; [assumption|]). split; [reflexivity | exact Hdel].
Qed.

(** C6, amended.  In a reachable state where two or more connections
    hold a display name, resolving the name yields the key of its first
    holder in own-property order, and a negotiation event addressed to
    the name by a joined sender other than that holder is delivered to
    that holder and to nobody else.  When the sender is that first holder
    itself, the handler still ends normally with one emit to its own
    room, and socket.io delivers it to nobody. *)
Theorem duplicate_name_relay st name :
  reachable (Payload := Payload) st ->
  2 <= length (holders (users st) name) ->
  exists room u rest,
    holders (users st) name = (room, u) :: rest
    /\ find_socket (users st) name = Some room
    /\ get room (users st) = Some u /\ username u = name
    /\ (forall sid us ev,
         get sid (users st) = Some us -> sid <> room ->
         destination ev = Some name ->
         exists e,
           handle st sid ev = Ok (st, [socket_to_emit sid room e])
           /\ deliveries (sockets st) [socket_to_emit sid room e] = [(room, e)])
    /\ (forall ev,
         destination ev = Some name ->
         exists e,
           handle st room ev = Ok (st, [socket_to_emit room room e])
           /\ deliveries (sockets st) [socket_to_emit room room e] = []).
Proof.
  intros Hreach Hlen. pose proof (reachable_wf _ Hreach) as Hwf.
  destruct (holders (users st) name) as [|[room u] rest] eqn:Hh;
    [simpl in Hlen; lia|].
  exists room, u, rest. split; [reflexivity|].
  assert (Hfind : find_socket (users st) name = Some room).
  { rewrite find_socket_holders by exact (wf_users_nodup _ Hwf). now rewrite Hh. }
  assert (Hin : In (room, u) (users st) /\ username u = name).
  { apply holders_in. rewrite Hh. now left. }
  destruct Hin as [Hin Hname].
  apply (in_get_some _ _ _ (wf_users_nodup _ Hwf)) in Hin.
  split; [exact Hfind|]. split; [exact Hin|]. split; [exact Hname|]. split.
  - intros sid us ev Hsid Hne Hd.
    destruct (joined_sender_emits st sid name room us Hwf Hsid Hfind)
      as (Ho & Ha & Hi & Hr & Hh' & Hdel).
    assert (Hdel' : forall e : server_event Payload,
               deliveries (sockets st) [socket_to_emit sid room e] = [(room, e)]).
    { intros e. rewrite Hdel.
      destruct (String.eqb_spec room sid); [congruence | reflexivity]. }
    destruct ev; simpl in Hd; try discriminate; injection Hd as ->;
      eexists; (split; [solve [apply Ho | apply Ha | apply Hi | apply Hr | apply Hh']
                       | apply Hdel']).
  - intros ev Hd.
    destruct (joined_sender_emits st room name room u Hwf Hin Hfind)
      as (Ho & Ha & Hi & Hr & Hh' & Hdel).
    assert (Hdel' : forall e : server_event Payload,
               deliveries (sockets st) [socket_to_emit room room e] = []).
    { intros e. rewrite Hdel. now rewrite String.eqb_refl. }
    destruct ev; simpl in Hd; try discriminate; injection Hd as ->;
      eexists; (split; [solve [apply Ho | apply Ha | apply Hi | apply Hr | apply Hh']
                       | apply Hdel']).
Qed.

(** C7 (one record per connection).  In a reachable state the registry
    has one property per key and every record carries the id it is
    stored under.  A join with any display name, the empty one included,
    ends normally; afterwards both facts still hold, the joining
    connection's record is the new one, every other connection reads as
    before, and the key order is unchanged when the connection had a
    record already. *)
Theorem join_replaces_in_place st sid name :
  reachable (Payload := Payload) st ->
  exists st' out,
    handle (Payload := Payload) st sid (Join name) = Ok (st', out)
    /\ NoDup (keys (users st))
    /\ NoDup (keys (users st'))
    /\ (forall k u, get k (users st') = Some u -> id u = k)
    /\ get sid (users st') = Some {| username := name; id := sid |}
    /\ (forall k, k <> sid -> get k (users st') = get k (users st))
    /\ (In sid (keys (users st)) -> keys (users st') = keys (users st)).
Proof.
  intros Hreach. pose proof (reachable_wf _ Hreach) as Hwf.
  eexists; eexists. split; [reflexivity|]. simpl.
  repeat split.
  - exact (wf_users_nodup _ Hwf).
  - apply NoDup_keys_set. exact (wf_users_nodup _ Hwf).
  - intros k u. destruct (string_dec sid k) as [->|Hne].
    + rewrite get_set_eq. now intros [= <-].
    + rewrite get_set_ne by exact Hne. apply (wf_users_id _ Hwf).
  - apply get_set_eq.
  - intros k Hne. apply get_set_ne. congruence.
  - apply keys_set_present.
Qed.

(** C8 (idempotent unregister).  The disconnect handler run for a
    connection id that has no record ends normally and leaves the
    registry as it is; so does the transport step.  Whatever the state,
    a disconnect leaves every other connection's record as it was, and a
    second disconnect of the same id changes nothing in the registry. *)
Theorem disconnect_absent_noop st sid :
  get sid (users st) = None ->
  handle (Payload := Payload) st sid Disconnect
    = Ok (st, [io_emit (update_users (values (users st)))])
  /\ (exists st' out,
        step (Payload := Payload) st (Event sid Disconnect) = Ok (st', out)
        /\ users st' = users st)
  /\ (forall k, k <> sid ->
        get k (users (fst (on_disconnect (Payload := Payload) st sid)))
        = get k (users st))
  /\ users (fst (on_disconnect (Payload := Payload)
                   (fst (on_disconnect (Payload := Payload) st sid)) sid))
     = users (fst (on_disconnect (Payload := Payload) st sid)).
Proof.
  intros Habs. repeat split.
  - simpl. unfold on_disconnect. rewrite (delete_absent _ _ Habs).
    now destruct st.
  - eexists; eexists. split; [reflexivity|]. simpl.
    now apply delete_absent.
  - intros k Hne. simpl. apply get_delete_ne. congruence.
  - simpl. apply delete_absent. apply get_delete_eq.
Qed.

(** C9 (no echo to the sender).  Whatever a negotiation handler emits is
    never delivered to the socket that sent the event; and when the
    destination name resolves to the sender's own id the handler ends
    normally and its emits reach no socket at all. *)
Theorem no_delivery_to_sender st sid ev to :
  destination ev = Some to ->
  (forall st' out socks e,
      handle st sid ev = Ok (st', out) -> ~ In (sid, e) (deliveries socks out))
  /\ (find_socket (users st) to = Some sid ->
      exists out,
        handle st sid ev = Ok (st, out) /\
        forall socks, deliveries socks out = []).
Proof.
  intros Hd. split.
  - intros st' out socks e H Hin.
    destruct (negotiation_out _ _ _ _ _ _ Hd H) as [->|(room & e' & ->)].
    + contradiction.
    + rewrite deliveries_one in Hin. unfold deliver in Hin.
      apply in_map_iff in Hin. destruct Hin as (s & [= -> _] & Hs).
      exact (recipients_not_sender _ _ _ _ Hs).
  - intros Hfind.
    destruct (find_socket_some _ _ _ Hfind) as (_ & u & Hget & _).
    assert (Hrel : forall e : server_event Payload,
               exists out, relay st sid to (Ok e) = Ok out /\
                           forall socks, deliveries socks out = []).
    { intros e. unfold relay. rewrite Hfind. simpl.
      destruct (String.eqb sid ""); simpl; eexists; split; try reflexivity.
      intros socks. apply deliveries_self. }
    negotiation_cases ev Hd; unfold_handlers; rewrite ?Hget; simpl;
      match goal with
      | |- exists _, bind (relay _ _ _ (Ok ?e)) _ = _ /\ _ =>
          destruct (Hrel e) as (out & -> & Hout); exists out; now split
      end.
Qed.

(** *** Presence *)

Lemma online_untouched tr k :
  ~ In k (map input_sid tr) -> online tr k = false.
Proof.
  unfold online. generalize false as acc.
  induction tr as [|i tr IH]; intros acc Hnot; simpl in *; [reflexivity|].
  unfold online_step at 2.
  destruct (String.eqb_spec (input_sid i) k) as [E|_]; [tauto|].
  apply IH. tauto.
Qed.

Lemma map_id_values (us : list (string * user)) :
  NoDup (keys us) ->
  (forall k u, get k us = Some u -> id u = k) ->
  map id (values us) = keys us.
Proof.
  intros Hnd Hid. unfold values, keys. rewrite map_map.
  apply map_ext_in. intros [k u] Hin. simpl.
  apply Hid. now apply in_get_some.
Qed.

Lemma in_values_get (us : list (string * user)) u :
  NoDup (keys us) ->
  (forall k u, get k us = Some u -> id u = k) ->
  In u (values us) <-> get (id u) us = Some u.
Proof.
  intros Hnd Hid. unfold values. rewrite in_map_iff. split.
  - intros ([k u'] & <- & Hin). simpl.
    pose proof (in_get_some _ _ _ Hnd Hin) as Hget.
    now rewrite (Hid _ _ Hget).
  - intros Hget. exists (id u, u). split; [reflexivity | now apply get_some_in].
Qed.

Lemma in_joined_now tr sid :
  In sid (joined_now tr) <->
  In sid (map input_sid tr) /\ online tr sid = true /\
  exists n, display_name tr sid = Some n.
Proof.
  unfold joined_now. rewrite filter_In, nodup_In, andb_true_iff.
  destruct (display_name tr sid) as [n|]; simpl.
  - split; [intros (H1 & H2 & _); eauto | tauto].
  - split; [intros (_ & _ & H); discriminate | intros (_ & _ & n & H); discriminate].
Qed.

Lemma NoDup_joined_now tr : NoDup (joined_now tr).
Proof. unfold joined_now. apply NoDup_filter, NoDup_nodup. Qed.

Lemma map_id_roster tr : map id (roster tr) = joined_now tr.
Proof. unfold roster. rewrite map_map. simpl. apply map_id. Qed.

Lemma map_username_roster tr :
  map username (roster tr) = map (current_name tr) (joined_now tr).
Proof. unfold roster. now rewrite map_map. Qed.

(** C4 (presence correctness).  A run of connections, joins and
    disconnects that socket.io can produce never raises.  If it holds a
    join or a disconnect, a snapshot was broadcast; and the latest
    snapshot broadcast lists, up to order, exactly the roster of the
    trace: one record, under its id, for every connection that is
    connected and joined at the end, carrying its current display name.
    So its length is the number of such connections and its usernames
    are their current names. *)
Theorem presence_snapshot_correct tr :
  admissible_trace init tr = true ->
  forallb is_presence_input tr = true ->
  exists st log,
    run init tr = Ok (st, log)
    /\ (existsb is_mutation tr = true -> last_snapshot log <> None)
    /\ forall S, last_snapshot log = Some S ->
         Permutation S (roster tr)
         /\ NoDup (map id S)
         /\ (forall sid n,
               In {| username := n; id := sid |} S <->
               online tr sid = true /\ display_name tr sid = Some n)
         /\ length S = length (joined_now tr)
         /\ Permutation (map username S)
                        (map (current_name tr) (joined_now tr)).
Proof.
  intros Hadm Hpres.
  destruct (presence_run_ok tr init Hpres) as [[st log] Hrun].
  exists st, log. split; [exact Hrun|].
  destruct (run_tracks tr st log Hadm Hrun) as (Hwf & Hon & Hus & Hsnap).
  split; [intros Hmut; rewrite Hsnap, Hmut; discriminate|].
  intros S HS. rewrite Hsnap in HS.
  destruct (existsb is_mutation tr); [|discriminate]. injection HS as <-.
  pose proof (wf_users_nodup _ Hwf) as Hnd.
  pose proof (wf_users_id _ Hwf) as Hid.
  assert (Hmem : forall sid n,
             In {| username := n; id := sid |} (values (users st)) <->
             online tr sid = true /\ display_name tr sid = Some n).
  { intros sid n. rewrite (in_values_get _ _ Hnd Hid). simpl. rewrite Hus.
    split.
    - intros H. destruct (display_name tr sid) as [m|] eqn:E; [|discriminate].
      simpl in H. injection H as ->. split; [|reflexivity].
      apply Hon. apply (wf_users_connected _ Hwf).
      apply (get_some_key sid {| username := n; id := sid |}).
      now rewrite Hus, E.
    - now intros [_ ->]. }
  assert (Hids : NoDup (map id (values (users st)))).
  { rewrite (map_id_values _ Hnd Hid). exact Hnd. }
  assert (Hperm : Permutation (values (users st)) (roster tr)).
  { apply NoDup_Permutation.
    - now apply NoDup_map_inv with (f := id).
    - apply NoDup_map_inv with (f := id). rewrite map_id_roster.
      apply NoDup_joined_now.
    - intros [n sid]. rewrite Hmem. unfold roster. rewrite in_map_iff. split.
      + intros [Hol Hdn]. exists sid. unfold current_name. rewrite Hdn.
        split; [reflexivity|]. apply in_joined_now. repeat split; eauto.
        destruct (in_dec string_dec sid (map input_sid tr)) as [I|N]; [exact I|].
        rewrite (online_untouched _ _ N) in Hol. discriminate.
      + intros (sid' & [= <- <-] & Hin). apply in_joined_now in Hin.
        destruct Hin as (_ & Hol & m & Hdn). unfold current_name.
        now rewrite Hdn. }
  split; [exact Hperm|]. split; [exact Hids|]. split; [exact Hmem|]. split.
  - rewrite <- map_id_roster, length_map. now apply Permutation_length.
  - rewrite <- map_username_roster. now apply Permutation_map.
Qed.

(** The missed case behind C1: in a reachable state, a sender that has
    no record and addresses a registered name makes the four handlers
    that read [users[socket.id].username] raise before anything is
    emitted; the hang-up handler, which does not read it, still emits. *)
Lemma unjoined_sender_raises st sid to room :
  wf st -> get sid (users st) = None ->
  find_socket (users st) to = Some room ->
  let e := TypeError "Cannot read properties of undefined (reading 'username')" in
  (forall p : Payload, handle st sid (Offer to p) = Throw e)
  /\ (forall p : Payload, handle st sid (Answer to p) = Throw e)
  /\ (forall p : Payload, handle st sid (IceCandidate to p) = Throw e)
  /\ handle (Payload := Payload) st sid (RejectCall to) = Throw e
  /\ handle (Payload := Payload) st sid (HangUp to)
     = Ok (st, [socket_to_emit sid room hang_up]).
Proof.
  intros Hwf Hsid Hfind e.
  repeat split; try intros p; simpl;
    unfold_handlers;
    rewrite (relay_resolved _ _ _ _ _ Hwf Hfind), ?Hsid; reflexivity.
Qed.
End WithPayload.

(** *** The sample states are reached by the sample runs *)

(** Proves [reachable st] by running the trace [tr]. *)
Ltac reached_by tr := exists tr; eexists; split; reflexivity.

Example trio_reachable : reachable (Payload := string) trio.
Proof. reached_by trio_trace. Qed.

Example twins_reachable : reachable (Payload := string) twins.
Proof. reached_by twins_trace. Qed.

Example early_reachable : reachable (Payload := string) early.
Proof. reached_by early_trace. Qed.

(** *** The claims on the sample runs *)

(** C1 on the sample run [early_trace]: socket s1 is connected and has not
    joined, s2 is registered as bob.  An offer, answer, ice-candidate or
    reject-call from s1 to bob raises a TypeError and emits nothing; only
    the hang-up is forwarded. *)
Example unjoined_sender_offer_raises :
  run init early_trace
    = Ok (early, [io_emit (update_users [{| username := "bob"; id := "s2" |}])])
  /\ find_socket (users early) "bob" = Some "s2"
  /\ handle early "s1" (Offer "bob" "sdp")
     = Throw (TypeError "Cannot read properties of undefined (reading 'username')")
  /\ handle early "s1" (Answer "bob" "sdp")
     = Throw (TypeError "Cannot read properties of undefined (reading 'username')")
  /\ handle early "s1" (IceCandidate "bob" "candidate")
     = Throw (TypeError "Cannot read properties of undefined (reading 'username')")
  /\ handle (Payload := string) early "s1" (RejectCall "bob")
     = Throw (TypeError "Cannot read properties of undefined (reading 'username')")
  /\ handle (Payload := string) early "s1" (HangUp "bob")
     = Ok (early, [socket_to_emit "s1" "s2" hang_up])
  /\ run init (early_trace ++ [Event "s1" (Offer "bob" "sdp")])
     = Throw (TypeError "Cannot read properties of undefined (reading 'username')").
Proof. repeat split; reflexivity. Qed.

Lemma unicast_isolation_witness :
  reachable (Payload := string) trio
  /\ get "sA" (users trio) = Some {| username := "alice"; id := "sA" |}
  /\ holders (users trio) "bob" = [("sB", {| username := "bob"; id := "sB" |})]
  /\ handle trio "sA" (Offer "bob" "sdp")
     = Ok (trio, [socket_to_emit "sA" "sB" (offer "alice" "sdp")])
  /\ deliveries (sockets trio) [socket_to_emit "sA" "sB" (offer "alice" "sdp")]
     = [("sB", offer "alice" "sdp")].
Proof.
  assert (Hreach : reachable (Payload := string) trio)
    by reached_by trio_trace.
  split; [exact Hreach|]. split; [reflexivity|]. split; [reflexivity|].
  destruct (unicast_isolation trio "sA" "sB"
              {| username := "alice"; id := "sA" |}
              {| username := "bob"; id := "sB" |} "sdp" Hreach
              eq_refl eq_refl eq_refl)
    as (Hh & Hd & _).
  split; [exact Hh | exact Hd].
Defined.

Lemma silent_drop_witness :
  destination (Payload := string) (HangUp "nobody") = Some "nobody"
  /\ holders (users trio) "nobody" = []
  /\ handle (Payload := string) trio "sA" (HangUp "nobody") = Ok (trio, [])
  /\ step (Payload := string) trio (Event "sA" (HangUp "nobody")) = Ok (trio, []).
Proof.
  split; [reflexivity|]. split; [reflexivity|].
  apply (silent_drop (Payload := string) trio "sA" (HangUp "nobody") "nobody");
    reflexivity.
Defined.

Lemma presence_snapshot_witness :
  admissible_trace init churn_trace = true
  /\ roster churn_trace
     = [{| username := "al"; id := "sA" |}; {| username := ""; id := "sC" |}]
  /\ exists st log,
       run init churn_trace = Ok (st, log)
       /\ forall S, last_snapshot log = Some S ->
            Permutation S (roster churn_trace)
            /\ length S = length (joined_now churn_trace).
Proof.
  split; [reflexivity|]. split; [reflexivity|].
  destruct (presence_snapshot_correct churn_trace eq_refl eq_refl)
    as (st & log & Hrun & _ & H).
  exists st, log. split; [exact Hrun|].
  intros S HS. destruct (H S HS) as (Hp & _ & _ & Hl & _). now split.
Defined.

(** C5 as stated fails for hang-up: on the sample run [trio_trace] alice
    (socket sA) sends a hang-up to bob; the destination resolves to sB and
    the event delivered to sB is the bare hang-up, which has no [from]
    field, so it does not carry the sender's name. *)
Lemma hang_up_carries_no_from :
  sender_name trio "sA" = Ok "alice"
  /\ find_socket (users trio) "bob" = Some "sB"
  /\ handle (Payload := string) trio "sA" (HangUp "bob")
     = Ok (trio, [socket_to_emit "sA" "sB" hang_up])
  /\ deliveries (Payload := string) (sockets trio) [socket_to_emit "sA" "sB" hang_up]
     = [("sB", hang_up)]
  /\ from_of (hang_up (Payload := string)) <> Some "alice".
Proof. repeat split; try reflexivity. discriminate. Qed.

Lemma forwarded_from_sender_witness :
  reachable (Payload := string) trio
  /\ get "sA" (users trio) = Some {| username := "alice"; id := "sA" |}
  /\ find_socket (users trio) "bob" = Some "sB"
  /\ handle trio "sA" (Answer "bob" "sdp")
     = Ok (trio, [socket_to_emit "sA" "sB" (answer "alice" "sdp")])
  /\ handle (Payload := string) trio "sA" (RejectCall "bob")
     = Ok (trio, [socket_to_emit "sA" "sB" (call_rejected "alice")])
  /\ handle (Payload := string) trio "sA" (HangUp "bob")
     = Ok (trio, [socket_to_emit "sA" "sB" hang_up]).
Proof.
  assert (Hreach : reachable (Payload := string) trio)
    by reached_by trio_trace.
  split; [exact Hreach|]. split; [reflexivity|]. split; [reflexivity|].
  destruct (forwarded_from_sender (Payload := string) trio "sA" "bob" "sB"
              {| username := "alice"; id := "sA" |}
              Hreach eq_refl eq_refl)
    as (_ & Ha & _ & Hr & Hh & _).
  split; [apply Ha | split; [exact Hr | exact Hh]].
Defined.

(** C6 as stated fails when the sender is the first holder: on the sample
    run [twins_trace] sA and sB both hold carol; an offer to carol sent by
    sA resolves to sA itself and is delivered to neither holder. *)
Lemma first_holder_relay_reaches_nobody :
  holders (users twins) "carol"
    = [("sA", {| username := "carol"; id := "sA" |});
       ("sB", {| username := "carol"; id := "sB" |})]
  /\ find_socket (users twins) "carol" = Some "sA"
  /\ handle twins "sA" (Offer "carol" "sdp")
     = Ok (twins, [socket_to_emit "sA" "sA" (offer "carol" "sdp")])
  /\ deliveries (sockets twins) [socket_to_emit "sA" "sA" (offer "carol" "sdp")]
     = [].
Proof. repeat split; reflexivity. Qed.

Lemma duplicate_name_relay_witness :
  reachable (Payload := string) twins
  /\ 2 <= length (holders (users twins) "carol")
  /\ exists room u rest,
       holders (users twins) "carol" = (room, u) :: rest
       /\ find_socket (users twins) "carol" = Some room
       /\ (exists e,
            handle twins "sD" (Offer "carol" "sdp")
              = Ok (twins, [socket_to_emit "sD" room e])
            /\ deliveries (sockets twins) [socket_to_emit "sD" room e]
               = [(room, e)])
       /\ (exists e,
            handle twins room (Offer "carol" "sdp")
              = Ok (twins, [socket_to_emit room room e])
            /\ deliveries (sockets twins) [socket_to_emit room room e] = []).
Proof.
  assert (Hreach : reachable (Payload := string) twins)
    by reached_by twins_trace.
  assert (Hlen : 2 <= length (holders (users twins) "carol"))
    by (simpl; lia).
  split; [exact Hreach|]. split; [exact Hlen|].
  destruct (duplicate_name_relay (Payload := string) twins "carol"
              Hreach Hlen)
    as (room & u & rest & Hh & Hf & _ & _ & Hrelay & Hown).
  exists room, u, rest. split; [exact Hh|]. split; [exact Hf|]. split.
  - apply (Hrelay "sD" {| username := "dave"; id := "sD" |}
             (Offer "carol" "sdp") eq_refl).
    + intros <-. vm_compute in Hf. discriminate.
    + reflexivity.
  - apply (Hown (Offer "carol" "sdp")). reflexivity.
Defined.

Lemma join_replaces_in_place_witness :
  reachable (Payload := string) trio
  /\ In "sA" (keys (users trio))
  /\ exists st' out,
       handle (Payload := string) trio "sA" (Join "") = Ok (st', out)
       /\ get "sA" (users st') = Some {| username := ""; id := "sA" |}
       /\ get "sB" (users st') = get "sB" (users trio)
       /\ keys (users st') = keys (users trio).
Proof.
  assert (Hreach : reachable (Payload := string) trio)
    by reached_by trio_trace.
  assert (Hin : In "sA" (keys (users trio))) by (simpl; tauto).
  split; [exact Hreach|]. split; [exact Hin|].
  destruct (join_replaces_in_place (Payload := string) trio "sA" "" Hreach)
    as (st' & out & Hh & _ & _ & _ & Hget & Hothers & Hkeys).
  exists st', out. repeat split; auto.
  apply Hothers. discriminate.
Defined.

Lemma disconnect_absent_noop_witness :
  get "s1" (users early) = None
  /\ handle (Payload := string) early "s1" Disconnect
     = Ok (early, [io_emit (update_users (values (users early)))]).
Proof.
  split; [reflexivity|].
  apply (disconnect_absent_noop (Payload := string) early "s1" eq_refl).
Defined.

Lemma no_delivery_to_sender_witness :
  destination (Offer "carol" "sdp") = Some "carol"
  /\ find_socket (users twins) "carol" = Some "sA"
  /\ exists out,
       handle twins "sA" (Offer "carol" "sdp") = Ok (twins, out)
       /\ forall socks, deliveries socks out = [].
Proof.
  split; [reflexivity|]. split; [reflexivity|].
  apply (no_delivery_to_sender twins "sA" (Offer "carol" "sdp") "carol" eq_refl).
  reflexivity.
Defined.

End RelayFacts.

(** ** The proxy route *)

Module ProxyFacts.
Import Proxy.
Local Open Scope string_scope.

(** *** Texts *)

Lemma append_empty_r (s : string) : s ++ "" = s.
Proof. induction s as [|c s IH]; simpl; [reflexivity | now rewrite IH]. Qed.

Lemma append_assoc3 (a b c : string) : (a ++ b) ++ c = a ++ b ++ c.
Proof. induction a as [|x a IH]; simpl; [reflexivity | now rewrite IH]. Qed.

Lemma prefix_append (pat r : string) : prefix pat (pat ++ r) = true.
Proof.
  induction pat as [|c pat IH]; simpl.
  - now destruct r.
  - destruct (ascii_dec c c) as [_|N]; [exact IH | now elim N].
Qed.

Lemma drop_append (pat r : string) : drop (String.length pat) (pat ++ r) = r.
Proof. induction pat as [|c pat IH]; simpl; [now destruct r | exact IH]. Qed.

Lemma no_dollar_append (a b : string) :
  no_dollar (a ++ b) = no_dollar a && no_dollar b.
Proof.
  induction a as [|c a IH]; simpl; [reflexivity|].
  now rewrite IH, andb_assoc.
Qed.

(** *** GetSubstitution *)

Lemma get_substitution_literal (matched before after template : string) :
  no_dollar template = true ->
  get_substitution matched before after template = template.
Proof.
  induction template as [|c t IH]; simpl; [reflexivity|].
  destruct (Ascii.eqb c "$"); simpl; [discriminate|].
  intros H. now rewrite IH.
Qed.

Example substitution_patterns :
  replace_all "ab" "[$&|$`|$'|$$]" "xabyabz" = "x[ab|x|yabz|$]y[ab|xaby|z|$]z"
  /\ replace "ab" "[$1|$]" "xabyabz" = "x[$1|$]yabz"
  /\ replace_all "aa" "b" "aaaaa" = "bba"
  /\ replace "zz" "b" "aaaaa" = "aaaaa".
Proof. repeat split; reflexivity. Qed.

(** *** Replacing every occurrence *)

Section ReplaceAll.
Variables pat template : string.
Hypothesis template_literal : no_dollar template = true.

Lemma replace_all_absent : forall s before,
  occurs pat s = false -> replace_all_from 0 before pat template s = s.
Proof.
  induction s as [|c s IH]; intros before H; [reflexivity|].
  cbn [occurs] in H. apply orb_false_iff in H. destruct H as [Hp Ho].
  cbn [replace_all_from]. rewrite Hp. now rewrite IH.
Qed.

Lemma replace_all_before : forall s skip b1 b2,
  replace_all_from skip b1 pat template s = replace_all_from skip b2 pat template s.
Proof.
  induction s as [|c s IH]; intros skip b1 b2; [reflexivity|].
  cbn [replace_all_from]. destruct skip as [|k].
  - rewrite !(get_substitution_literal _ _ _ _ template_literal).
    destruct (prefix pat (String c s)).
    + f_equal. apply IH.
    + f_equal. apply IH.
  - apply IH.
Qed.

Lemma replace_all_skip : forall s skip before,
  replace_all_from skip before pat template s
  = replace_all_from 0 before pat template (drop skip s).
Proof.
  induction s as [|c s IH]; intros skip before.
  - now destruct skip.
  - destruct skip as [|k]; [reflexivity|].
    cbn [replace_all_from drop]. rewrite IH. apply replace_all_before.
Qed.

Lemma replace_all_hit (r before : string) :
  pat <> "" ->
  replace_all_from 0 before pat template (pat ++ r)
  = template ++ replace_all_from 0 before pat template r.
Proof.
  intros Hne.
  assert (Hshape : exists c p, pat = String c p /\ pat ++ r = String c (p ++ r)
                               /\ String.length pat - 1 = String.length p).
  { destruct pat as [|c p]; [congruence|]. exists c, p.
    cbn [append String.length]. now rewrite Nat.sub_succ, Nat.sub_0_r. }
  destruct Hshape as (c & p & _ & Hs & Hlen).
  pose proof (prefix_append pat r) as Hp. pose proof (drop_append pat r) as Hd.
  rewrite Hs in *. cbn [replace_all_from]. rewrite Hp.
  rewrite (get_substitution_literal _ _ _ _ template_literal).
  f_equal. rewrite replace_all_skip, Hlen.
  assert (Hd' : drop (String.length p) (p ++ r) = r) by apply drop_append.
  rewrite Hd'. apply replace_all_before.
Qed.

Lemma replace_all_first : forall a r before,
  pat <> "" ->
  no_match_before pat a (pat ++ r) = true ->
  replace_all_from 0 before pat template (a ++ pat ++ r)
  = a ++ template ++ replace_all_from 0 before pat template r.
Proof.
  induction a as [|c a IH]; intros r before Hne H.
  - now apply replace_all_hit.
  - cbn [no_match_before] in H. apply andb_true_iff in H. destruct H as [Hp H].
    apply negb_true_iff in Hp. cbn [append] in *.
    cbn [replace_all_from]. rewrite Hp. f_equal.
    rewrite (IH r _ Hne H). f_equal. f_equal. apply replace_all_before.
Qed.

Lemma replace_all_replaces_every :
  pat <> "" -> replaces_every pat template (replace_all pat template).
Proof.
  intros Hne. split.
  - intros s H. now apply replace_all_absent.
  - intros a r H. now apply replace_all_first.
Qed.
End ReplaceAll.

(** *** Replacing the first occurrence *)

Section ReplaceFirst.
Variables pat template : string.
Hypothesis template_literal : no_dollar template = true.

Lemma replace_absent : forall s before,
  occurs pat s = false -> replace_from before pat template s = before ++ s.
Proof.
  induction s as [|c s IH]; intros before H.
  - cbn [occurs] in H. rewrite orb_false_r in H.
    cbn [replace_from]. rewrite H. now rewrite append_empty_r.
  - cbn [occurs] in H. apply orb_false_iff in H. destruct H as [Hp Ho].
    cbn [replace_from]. rewrite Hp. rewrite (IH _ Ho).
    now rewrite append_assoc3.
Qed.

Lemma replace_first : forall a r before,
  no_match_before pat a (pat ++ r) = true ->
  replace_from before pat template (a ++ pat ++ r)
  = before ++ a ++ template ++ r.
Proof.
  induction a as [|c a IH]; intros r before H.
  - cbn [append]. pose proof (prefix_append pat r) as Hp.
    destruct (pat ++ r) as [|x y] eqn:E; cbn [replace_from]; rewrite Hp;
      rewrite (get_substitution_literal _ _ _ _ template_literal);
      rewrite <- E, drop_append; reflexivity.
  - cbn [no_match_before] in H. apply andb_true_iff in H. destruct H as [Hp H].
    apply negb_true_iff in Hp. cbn [append] in *.
    cbn [replace_from]. rewrite Hp. rewrite (IH r _ H).
    now rewrite append_assoc3.
Qed.

Lemma replace_replaces_first :
  replaces_first pat template (replace pat template).
Proof.
  split.
  - intros s H. unfold replace. now rewrite replace_absent.
  - intros a r H. unfold replace. now rewrite replace_first.
Qed.
End ReplaceFirst.

(** *** The route *)

Lemma root_relative_nonempty (attr : string) : root_relative attr <> "".
Proof. unfold root_relative. destruct attr; discriminate. Qed.

Lemma absolute_literal (attr baseUrl : string) :
  no_dollar attr = true -> no_dollar baseUrl = true ->
  no_dollar (absolute attr baseUrl) = true.
Proof.
  intros Ha Hb. unfold absolute. rewrite !no_dollar_append, Ha, Hb. reflexivity.
Qed.

Lemma base_tag_literal (targetUrl : string) :
  no_dollar targetUrl = true -> no_dollar (base_tag targetUrl) = true.
Proof.
  intros H. unfold base_tag. rewrite !no_dollar_append, H. reflexivity.
Qed.

(** A request without the parameter, or with an empty one, is answered
    400 and nothing is fetched. *)
Lemma proxy_missing_url axios_get URL_origin :
  proxy axios_get URL_origin None
    = res_json 400 [("error", "URL parameter is required")]
  /\ proxy axios_get URL_origin (Some "")
     = res_json 400 [("error", "URL parameter is required")].
Proof. split; reflexivity. Qed.

(** C10, amended.  For a non-empty [url] parameter the route makes one
    request, with a timeout of 10000 ms and at most 5 redirects, and its
    answer depends on the network through that request only.  When the
    request fails, or anything else in the try block throws, the answer
    is status 500 with the two-field error body.
    When it yields a text and the URL has an origin, the answer is status
    200 with the text rewritten by four passes: every occurrence of the
    double-quoted openings of a root-relative href, src and action
    attribute is replaced by the same opening followed by the origin and a
    slash, and the first literal head tag, when there is one, is followed
    by a base tag for the URL; a text without these literals is returned
    as fetched.  (The replacements are literal when the origin and the URL
    hold no dollar sign.)  The registry and the sockets are returned
    untouched. *)
Theorem proxy_route
  (axios_get : string -> axios_config -> string + js_data)
  (URL_origin : string -> option string)
  (st : Relay.server) (targetUrl : string) :
  targetUrl <> "" ->
  timeout proxy_config = 10000%N /\ maxRedirects proxy_config = 5%N
  /\ (forall other_get,
        other_get targetUrl proxy_config = axios_get targetUrl proxy_config ->
        app_get_proxy other_get URL_origin st (Some targetUrl)
        = app_get_proxy axios_get URL_origin st (Some targetUrl))
  /\ (forall msg,
        axios_get targetUrl proxy_config = inl msg ->
        app_get_proxy axios_get URL_origin st (Some targetUrl)
        = (st, res_json 500 [("error", "Failed to fetch website");
                             ("details", msg)]))
  /\ (forall e,
        try_proxy axios_get URL_origin targetUrl = Throw e ->
        app_get_proxy axios_get URL_origin st (Some targetUrl)
        = (st, res_json 500 [("error", "Failed to fetch website");
                             ("details", message_of e)]))
  /\ (forall html baseUrl,
        axios_get targetUrl proxy_config = inr (DString html) ->
        URL_origin targetUrl = Some baseUrl ->
        app_get_proxy axios_get URL_origin st (Some targetUrl)
        = (st, res_send 200 "text/html"
                 (replace "<head>" (base_tag targetUrl)
                    (replace_all (root_relative "action") (absolute "action" baseUrl)
                       (replace_all (root_relative "src") (absolute "src" baseUrl)
                          (replace_all (root_relative "href")
                             (absolute "href" baseUrl) html))))))
  /\ (forall baseUrl attr,
        no_dollar baseUrl = true ->
        In attr ["href"; "src"; "action"] ->
        replaces_every (root_relative attr) (absolute attr baseUrl)
          (replace_all (root_relative attr) (absolute attr baseUrl)))
  /\ (no_dollar targetUrl = true ->
      replaces_first "<head>" (base_tag targetUrl)
        (replace "<head>" (base_tag targetUrl)))
  /\ fst (app_get_proxy axios_get URL_origin st (Some targetUrl)) = st.
Proof.
  intros Hne. apply String.eqb_neq in Hne.
  split; [reflexivity|]. split; [reflexivity|]. split.
  { intros other Hsame. unfold app_get_proxy, proxy, try_proxy, fetch.
    now rewrite Hsame. }
  split.
  { intros msg Hfail. unfold app_get_proxy, proxy, try_proxy, fetch.
    now rewrite Hne, Hfail. }
  split.
  { intros e Hthrow. unfold app_get_proxy, proxy. now rewrite Hne, Hthrow. }
  split.
  { intros html baseUrl Hok Horigin.
    unfold app_get_proxy, proxy, try_proxy, fetch, origin_of.
    now rewrite Hne, Hok, Horigin. }
  split.
  { intros baseUrl attr Hb Hattr. apply replace_all_replaces_every.
    - apply absolute_literal; [|exact Hb].
      destruct Hattr as [<-|[<-|[<-|[]]]]; reflexivity.
    - apply root_relative_nonempty. }
  split.
  { intros Hu. apply replace_replaces_first. now apply base_tag_literal. }
  reflexivity.
Qed.

(** C10 as stated fails on a page without the literal head tag and with
    a single-quoted attribute: the sample site's plain page comes back as
    fetched, with its root-relative href as it was and no base tag. *)
Lemma plain_page_comes_back_unchanged :
  sample_get "http://x.org/plain" proxy_config = inr (DString plain_page)
  /\ sample_origin "http://x.org/plain" = Some "http://x.org"
  /\ proxy sample_get sample_origin (Some "http://x.org/plain")
     = res_send 200 "text/html" plain_page
  /\ occurs "href='/x'" plain_page = true
  /\ occurs "<base" plain_page = false.
Proof. repeat split; reflexivity. Qed.

Lemma proxy_route_witness :
  "http://x.org/linked" <> ""
  /\ sample_get "http://x.org/linked" proxy_config = inr (DString linked_page)
  /\ app_get_proxy sample_get sample_origin Relay.trio (Some "http://x.org/linked")
     = (Relay.trio,
        res_send 200 "text/html"
          (replace "<head>" (base_tag "http://x.org/linked")
             (replace_all (root_relative "action") (absolute "action" "http://x.org")
                (replace_all (root_relative "src") (absolute "src" "http://x.org")
                   (replace_all (root_relative "href")
                      (absolute "href" "http://x.org") linked_page))))).
Proof.
  assert (Hne : "http://x.org/linked" <> "") by discriminate.
  split; [exact Hne|]. split; [reflexivity|].
  destruct (proxy_route sample_get sample_origin Relay.trio
              "http://x.org/linked" Hne)
    as (_ & _ & _ & _ & _ & Hok & _).
  apply Hok; reflexivity.
Defined.

(** The linked page of the sample site, as the route answers it. *)
Example linked_page_rewritten :
  proxy sample_get sample_origin (Some "http://x.org/linked")
  = res_send 200 "text/html"
      ("<html><head><base href=" ++ dq ++ "http://x.org/linked" ++ dq
       ++ "><link href=" ++ dq ++ "http://x.org/s.css" ++ dq
       ++ "></head><body><img src=" ++ dq ++ "http://x.org/a.png" ++ dq
       ++ "><form action=" ++ dq ++ "http://x.org/go" ++ dq
       ++ "></form></body></html>").
Proof. reflexivity. Qed.

(** A request that cannot be fetched is answered 500. *)
Example unreachable_site_500 :
  proxy sample_get sample_origin (Some "http://y.org/")
  = res_json 500 [("error", "Failed to fetch website");
                  ("details", "getaddrinfo ENOTFOUND")].
Proof. reflexivity. Qed.

End ProxyFacts.

(** * Further properties of the relay *)

Module RelayMore.
Import JsObject JsObjectFacts Relay RelayFacts.

Section ObjectLaws.
Context {V : Type}.
Implicit Types (o : list (string * V)) (k : string) (v : V).

Lemma set_set k v1 v2 o : set k v2 (set k v1 o) = set k v2 o.
Proof.
  induction o as [|[k' v'] o IH]; simpl.
  - now rewrite String.eqb_refl.
  - destruct (String.eqb_spec k' k) as [->|Hne]; simpl.
    + now rewrite String.eqb_refl.
    + destruct (String.eqb_spec k' k); [contradiction | now rewrite IH].
Qed.

Lemma delete_set_absent k v o : get k o = None -> delete k (set k v o) = o.
Proof.
  induction o as [|[k' v'] o IH]; simpl.
  - now rewrite String.eqb_refl.
  - destruct (String.eqb_spec k' k) as [->|Hne]; [discriminate|]. simpl.
    destruct (String.eqb_spec k' k); [contradiction|].
    intros H. now rewrite IH.
Qed.

Lemma length_set k v o :
  length (set k v o)
  = match get k o with Some _ => length o | None => S (length o) end.
Proof.
  induction o as [|[k' v'] o IH]; simpl; [reflexivity|].
  destruct (String.eqb_spec k' k) as [->|Hne]; simpl; [reflexivity|].
  rewrite IH. now destruct (get k o).
Qed.

Lemma length_delete k o :
  NoDup (keys o) ->
  length (delete k o)
  = match get k o with Some _ => pred (length o) | None => length o end.
Proof.
  induction o as [|[k' v'] o IH]; simpl; [reflexivity|].
  intros Hnd. inversion Hnd as [|? ? Hnot Hnd']; subst.
  destruct (String.eqb_spec k' k) as [->|Hne]; simpl.
  - apply get_none_iff in Hnot. now rewrite delete_absent.
  - rewrite (IH Hnd'). destruct (get k o) eqn:E; [|reflexivity].
    destruct o; [discriminate | reflexivity].
Qed.
End ObjectLaws.

Lemma holders_delete users k name :
  holders (delete k users) name
  = filter (fun kv => negb (String.eqb (fst kv) k)) (holders users name).
Proof.
  unfold holders. induction users as [|[k' u] users IH]; simpl; [reflexivity|].
  destruct (String.eqb_spec k' k) as [->|Hne]; simpl.
  - rewrite IH. destruct (String.eqb (username u) name); simpl; [|reflexivity].
    now rewrite String.eqb_refl.
  - rewrite IH. destruct (String.eqb (username u) name); simpl; [|reflexivity].
    destruct (String.eqb_spec k' k); [contradiction | reflexivity].
Qed.

Section WithPayload.
Context {Payload : Type}.
Implicit Types (st : server) (sid to : string) (ev : client_event Payload)
  (i : input Payload) (tr : list (input Payload)).

(** What [relay] returns, by the three things it reads. *)
Lemma relay_outcome st sid to (mk : outcome (server_event Payload)) :
  relay st sid to mk =
  match find_socket (users st) to with
  | None => Ok []
  | Some room =>
      if String.eqb room "" then Ok []
      else match mk with
           | Ok e => Ok [socket_to_emit sid room e]
           | Throw x => Throw x
           end
  end.
Proof.
  unfold relay. destruct (find_socket (users st) to) as [room|]; simpl;
    [|reflexivity].
  destruct (String.eqb room ""); simpl; [reflexivity|]. now destruct mk.
Qed.

Lemma handle_negotiation st sid ev to :
  destination ev = Some to ->
  handle st sid ev = (out <- relay st sid to (built st sid ev) ;; Ok (st, out)).
Proof. intros Hd. negotiation_cases ev Hd; reflexivity. Qed.

Lemma built_throws st sid ev to :
  destination ev = Some to ->
  (exists x, built st sid ev = Throw x) <->
  is_hang_up ev = false /\ get sid (users st) = None.
Proof.
  intros Hd. negotiation_cases ev Hd; unfold sender_name;
    destruct (get sid (users st)) as [u|]; simpl;
    (split; [intros [x Hx]; try discriminate; auto
            | intros [H1 H2]; try discriminate; eauto]).
Qed.

(** *** The router *)

Lemma negotiation_result st sid ev to st' out :
  destination ev = Some to ->
  handle st sid ev = Ok (st', out) ->
  st' = st
  /\ last_snapshot out = None
  /\ (out = [] \/
      exists room e,
        out = [socket_to_emit sid room e]
        /\ find_socket (users st) to = Some room /\ room <> "").
Proof.
  intros Hd H. split; [exact (handle_negotiation_state _ _ _ _ _ _ Hd H)|].
  split; [exact (negotiation_no_snapshot _ _ _ _ _ _ Hd H)|].
  rewrite (handle_negotiation _ _ _ _ Hd), relay_outcome in H.
  destruct (find_socket (users st) to) as [k|]; simpl in H;
    [|injection H as _ <-; now left].
  destruct (String.eqb_spec k "") as [E|Hne]; simpl in H;
    [injection H as _ <-; now left|].
  destruct (built st sid ev) as [e|x]; simpl in H; [|discriminate].
  injection H as _ <-. right. exists k, e. auto.
Qed.

(** X1 (the router reads, never writes).  A negotiation event that ends
    normally returns the state it was given, broadcasts no snapshot, and
    emits nothing or one [socket.to(room).emit] whose sender is the
    handling socket and whose room is what the destination resolves to. *)
Theorem negotiation_reads_only st sid ev to st' out :
  destination ev = Some to ->
  handle st sid ev = Ok (st', out) ->
  st' = st
  /\ last_snapshot out = None
  /\ (out = [] \/
      exists room e,
        out = [socket_to_emit sid room e]
        /\ find_socket (users st) to = Some room /\ room <> "").
Proof. apply negotiation_result. Qed.

(** Once the destination name is read, a handler raises exactly when the
    event is no hang-up, the name resolves to a non-empty key and the
    sender has no record. *)
Lemma handle_raises_iff st sid ev to :
  destination ev = Some to ->
  ((exists x, handle st sid ev = Throw x) <->
   is_hang_up ev = false
   /\ truthy (find_socket (users st) to) = true
   /\ get sid (users st) = None)
  /\ (forall x, handle st sid ev = Throw x ->
        x = TypeError "Cannot read properties of undefined (reading 'username')").
Proof.
  intros Hd. rewrite (handle_negotiation _ _ _ _ Hd), relay_outcome.
  pose proof (built_throws st sid ev to Hd) as Hb.
  assert (Hx : forall x, built st sid ev = Throw x ->
             x = TypeError "Cannot read properties of undefined (reading 'username')").
  { negotiation_cases ev Hd; unfold sender_name;
      destruct (get sid (users st)); simpl; intros x [= <-]; reflexivity. }
  destruct (find_socket (users st) to) as [room|]; simpl.
  - destruct (String.eqb room ""); simpl.
    + split; [|discriminate]. split; [intros [x Hx']; discriminate|].
      intros (_ & H & _). discriminate.
    + destruct (built st sid ev) as [e|x] eqn:E; simpl.
      * split; [|discriminate]. split; [intros [x Hx']; discriminate|].
        intros (H1 & _ & H3). destruct (proj2 Hb (conj H1 H3)). discriminate.
      * split.
        -- split; [|eauto]. intros _.
           destruct (proj1 Hb (ex_intro _ x eq_refl)) as [H1 H3]. auto.
        -- intros y [= <-]. now apply Hx.
  - split; [|discriminate]. split; [intros [x Hx']; discriminate|].
    intros (_ & H & _). discriminate.
Qed.

(** X10 (no misdelivery).  In a reachable state, whatever a negotiation
    event addressed to a name makes socket.io deliver goes to one socket
    only: the first holder of that name in the registry, which is not the
    sender. *)
Theorem delivered_to_first_holder_only st sid ev to st' out r e :
  reachable (Payload := Payload) st ->
  destination ev = Some to ->
  handle st sid ev = Ok (st', out) ->
  In (r, e) (deliveries (sockets st) out) ->
  r <> sid
  /\ deliveries (sockets st) out = [(r, e)]
  /\ exists u rest, holders (users st) to = (r, u) :: rest.
Proof.
  intros Hreach Hd H Hin. pose proof (reachable_wf _ Hreach) as Hwf.
  destruct (negotiation_result _ _ _ _ _ _ Hd H)
    as (_ & _ & [->|(room & e' & -> & Hfind & Hne)]); [contradiction|].
  destruct (resolved_room _ _ _ Hwf Hfind) as (_ & Hsock & _).
  assert (Hrs : room <> sid).
  { intros ->. rewrite deliveries_self in Hin. contradiction. }
  rewrite (deliveries_unicast _ _ _ _ Hwf Hsock Hrs) in *.
  destruct Hin as [[= <- <-]|[]]. split; [exact Hrs|]. split; [reflexivity|].
  rewrite (find_socket_holders _ _ (wf_users_nodup _ Hwf)) in Hfind.
  destruct (holders (users st) to) as [|[k u] rest]; [discriminate|].
  simpl in Hfind. injection Hfind as ->. eauto.
Qed.

(** A sender with a record, and any sender of a hang-up, gets a normal
    end. *)
Lemma negotiation_ok st sid ev to :
  destination ev = Some to ->
  is_hang_up ev = true \/ get sid (users st) <> None ->
  exists out, handle st sid ev = Ok (st, out).
Proof.
  intros Hd Hc. rewrite (handle_negotiation _ _ _ _ Hd), relay_outcome.
  destruct (find_socket (users st) to) as [k|]; simpl; [|eauto].
  destruct (String.eqb k ""); simpl; [eauto|].
  destruct (built st sid ev) as [e|x] eqn:E; simpl; [eauto|].
  destruct (proj1 (built_throws st sid ev to Hd) (ex_intro _ x E)) as [H1 H2].
  destruct Hc as [Hc|Hc]; congruence.
Qed.

Lemma senders_joined_from_snoc (before rest : list (input Payload)) i :
  senders_joined_from before (rest ++ [i])
  = senders_joined_from before rest && sender_may_negotiate (before ++ rest) i.
Proof.
  revert before. induction rest as [|j rest IH]; intros before; simpl.
  - now rewrite app_nil_r, andb_true_r.
  - rewrite IH, <- app_assoc. simpl. now rewrite andb_assoc.
Qed.

(** Events that name their destination: when every one other than a
    hang-up comes from a socket that holds a record at that moment, the
    run ends normally. *)
Lemma inputs_joined_run tr :
  admissible_trace init tr = true ->
  senders_joined tr = true ->
  exists st out, run init tr = Ok (st, out).
Proof.
  unfold senders_joined.
  induction tr as [|i tr IH] using rev_ind; intros Hadm Hj; [simpl; eauto|].
  apply admissible_trace_snoc in Hadm. destruct Hadm as [Hadm _].
  rewrite senders_joined_from_snoc in Hj. apply andb_true_iff in Hj.
  destruct Hj as [Hj Hi]. simpl in Hi.
  destruct (IH Hadm Hj) as (st & out & Hrun).
  destruct (run_tracks tr st out Hadm Hrun) as (_ & _ & Hus & _).
  rewrite run_app, Hrun. simpl.
  assert (Hstep : exists r, step st i = Ok r).
  { destruct i as [sid|sid ev]; [simpl; eauto|].
    destruct (destination ev) as [to|] eqn:Hd.
    - rewrite (step_negotiation _ _ _ _ Hd). simpl in Hi. rewrite Hd in Hi.
      destruct (negotiation_ok st sid ev to Hd) as [o Ho]; [|eauto].
      apply orb_true_iff in Hi. destruct Hi as [Hi|Hi]; [now left|right].
      rewrite Hus. destruct (display_name tr sid); simpl in *; congruence.
    - destruct ev; simpl in Hd; try discriminate; simpl; eauto. }
  destruct Hstep as [[st1 o1] ->]. simpl. eauto.
Qed.

Lemma unresolved_dropped st sid ev to :
  destination ev = Some to -> holders (users st) to = [] ->
  handle st sid ev = Ok (st, []).
Proof.
  intros Hd Hnone. rewrite (handle_negotiation _ _ _ _ Hd), relay_outcome.
  now rewrite (holders_nil _ _ Hnone).
Qed.

(** *** Joining and leaving *)

(** X4 (disconnect cleanup).  In a reachable state where a name is held
    by connection [B] alone, the disconnect of [B] ends normally and
    broadcasts a snapshot without a record of [B]; afterwards [B] is
    neither connected nor registered, every other record reads as before,
    and any negotiation event addressed to the name is dropped. *)
Theorem disconnect_cleanup st B u name :
  reachable (Payload := Payload) st ->
  holders (users st) name = [(B, u)] ->
  exists st',
    step (Payload := Payload) st (Event B Disconnect)
      = Ok (st', [io_emit (update_users (values (users st')))])
    /\ ~ In B (map id (values (users st')))
    /\ ~ In B (sockets st')
    /\ get B (users st') = None
    /\ (forall k, k <> B -> get k (users st') = get k (users st))
    /\ (forall sid ev,
          destination ev = Some name ->
          handle (Payload := Payload) st' sid ev = Ok (st', [])).
Proof.
  intros Hreach Hh. pose proof (reachable_wf _ Hreach) as Hwf.
  assert (HB : In (B, u) (users st) /\ username u = name).
  { apply holders_in. rewrite Hh. now left. }
  destruct HB as [HB _].
  assert (Hconn : connected st B = true).
  { apply connected_iff, (wf_users_connected _ Hwf).
    unfold keys. now apply (in_map fst) in HB. }
  exists (fst (on_disconnect (Payload := Payload) (close_socket st B) B)).
  split; [reflexivity|].
  assert (Hwf' : wf (fst (on_disconnect (Payload := Payload) (close_socket st B) B))).
  { apply (wf_step st (Event B Disconnect) _
             (snd (on_disconnect (Payload := Payload) (close_socket st B) B)) Hwf Hconn).
    reflexivity. }
  pose proof (map_id_values _ (wf_users_nodup _ Hwf') (wf_users_id _ Hwf')) as Hm.
  simpl in *.
  split.
  { rewrite Hm. intros H. apply in_keys_delete in H. tauto. }
  split.
  { intros H. apply filter_In in H. destruct H as [_ H].
    now rewrite String.eqb_refl in H. }
  split; [apply get_delete_eq|].
  split; [intros k Hne; apply get_delete_ne; congruence|].
  intros sid ev Hd.
  apply (unresolved_dropped _ sid ev name Hd).
  simpl. rewrite holders_delete, Hh. simpl. now rewrite String.eqb_refl.
Qed.

(** X5 (who gets the presence broadcast).  In a reachable state, the
    join of a connected socket is broadcast to every connected socket,
    the joiner included, once each; the disconnect of a connected socket
    is broadcast to every other connected socket and not to the one that
    left.  Each delivery carries the registry as it is after the event. *)
Theorem presence_broadcast_reach st sid name :
  reachable (Payload := Payload) st ->
  In sid (sockets st) ->
  (exists st1 out1,
      step (Payload := Payload) st (Event sid (Join name)) = Ok (st1, out1)
      /\ deliveries (sockets st1) out1
         = map (fun s => (s, update_users (values (users st1)))) (sockets st)
      /\ NoDup (sockets st))
  /\ (exists st2 out2,
        step (Payload := Payload) st (Event sid Disconnect) = Ok (st2, out2)
        /\ forall s e,
             In (s, e) (deliveries (sockets st2) out2) <->
             In s (sockets st) /\ s <> sid
             /\ e = update_users (values (users st2))).
Proof.
  intros Hreach Hin. pose proof (reachable_wf _ Hreach) as Hwf. split.
  - eexists; eexists. split; [reflexivity|]. rewrite deliveries_one.
    split; [reflexivity | exact (wf_sockets_nodup _ Hwf)].
  - eexists; eexists. split; [reflexivity|]. intros s e.
    rewrite deliveries_one. unfold deliver. simpl. rewrite in_map_iff. split.
    + intros (s' & [= <- <-] & Hs). apply filter_In in Hs. destruct Hs as [Hs Hne].
      apply negb_true_iff, String.eqb_neq in Hne. auto.
    + intros (Hs & Hne & ->). exists s. split; [reflexivity|].
      apply filter_In. split; [exact Hs|].
      now apply negb_true_iff, String.eqb_neq.
Qed.

(** X6 (last write wins).  Two joins in a row by one connection leave the
    server as the second join alone would, registry and broadcast alike;
    so joining twice under one name changes nothing the second time. *)
Theorem join_last_write_wins st sid name1 name2 :
  on_join (Payload := Payload) (fst (on_join (Payload := Payload) st sid name1))
    sid name2
  = on_join st sid name2.
Proof. unfold on_join. simpl. now rewrite set_set. Qed.

(** X7 (join then leave).  When a connection without a record joins and
    then disconnects, the registry is again what it was before the join,
    and the disconnect broadcasts the snapshot from before the join. *)
Theorem join_disconnect_round_trip st sid name :
  get sid (users st) = None ->
  on_disconnect (Payload := Payload)
    (fst (on_join (Payload := Payload) st sid name)) sid
  = (st, [io_emit (update_users (values (users st)))]).
Proof.
  intros Habs. unfold on_disconnect, on_join. simpl.
  rewrite (delete_set_absent _ _ _ Habs). now destruct st.
Qed.

(** X8 (snapshot size).  In a reachable state a join adds one record when
    the connection has none and keeps the count otherwise; a disconnect
    removes one record when the connection has one and keeps the count
    otherwise. *)
Theorem snapshot_size st sid name :
  reachable (Payload := Payload) st ->
  length (values (users (fst (on_join (Payload := Payload) st sid name))))
  = match get sid (users st) with
    | Some _ => length (values (users st))
    | None => S (length (values (users st)))
    end
  /\ length (values (users (fst (on_disconnect (Payload := Payload) st sid))))
     = match get sid (users st) with
       | Some _ => pred (length (values (users st)))
       | None => length (values (users st))
       end.
Proof.
  intros Hreach. pose proof (reachable_wf _ Hreach) as Hwf.
  unfold values. simpl. rewrite !length_map. split.
  - apply length_set.
  - apply length_delete. exact (wf_users_nodup _ Hwf).
Qed.

(** X11 (the registry invariant).  In every reachable state the
    connected socket ids are distinct and non-empty, the registry has one
    record per key, every key is the id of a connected socket, and every
    record carries the id it is stored under. *)
Theorem registry_invariant st :
  reachable (Payload := Payload) st ->
  NoDup (sockets st)
  /\ ~ In "" (sockets st)
  /\ NoDup (keys (users st))
  /\ (forall k, In k (keys (users st)) -> In k (sockets st))
  /\ (forall k u, get k (users st) = Some u -> id u = k)
  /\ map id (values (users st)) = keys (users st).
Proof.
  intros Hreach. destruct (reachable_wf _ Hreach) as [H1 H2 _ H3 H4 H5].
  repeat split; trivial. now apply map_id_values.
Qed.

Lemma not_presence_is_negotiation i :
  is_presence_input i = false ->
  exists sid ev to, i = Event sid ev /\ destination ev = Some to.
Proof.
  destruct i as [sid|sid ev]; simpl; [discriminate|].
  destruct ev; simpl; try discriminate; intros _;
    do 3 eexists; split; reflexivity.
Qed.

(** X12 (negotiation never disturbs presence).  A run that ends normally
    ends in the state, and with the latest snapshot, of the same run with
    its negotiation events left out. *)
Theorem negotiation_frames_presence tr : forall st st' out,
  run st tr = Ok (st', out) ->
  exists out',
    run st (filter is_presence_input tr) = Ok (st', out')
    /\ last_snapshot out' = last_snapshot out.
Proof.
  induction tr as [|i tr IH]; intros st st' out Hrun; simpl in *.
  - injection Hrun as <- <-. eauto.
  - destruct (step st i) as [[st1 o1]|x] eqn:Hstep; simpl in Hrun; [|discriminate].
    destruct (run st1 tr) as [[st2 o2]|x] eqn:Hrest; simpl in Hrun; [|discriminate].
    injection Hrun as <- <-.
    destruct (IH _ _ _ Hrest) as (o2' & Hrun' & Hsnap).
    destruct (is_presence_input i) eqn:Hp; simpl.
    + rewrite Hstep. simpl. rewrite Hrun'. simpl. eexists. split; [reflexivity|].
      now rewrite !last_snapshot_app, Hsnap.
    + destruct (not_presence_is_negotiation i Hp) as (sid & ev & to & -> & Hd).
      rewrite (step_negotiation _ _ _ _ Hd) in Hstep.
      pose proof (negotiation_no_snapshot _ _ _ _ _ _ Hd Hstep) as Hno.
      apply (handle_negotiation_state _ _ _ _ _ _ Hd) in Hstep. subst st1.
      exists o2'. split; [exact Hrun'|].
      rewrite last_snapshot_app, Hsnap, Hno. now destruct (last_snapshot o2).
Qed.
(** X16 (anyone can hang up).  In a reachable state a hang-up addressed
    to a name that resolves to another socket is forwarded to that socket
    whoever sends it, with or without a record, and what is delivered has
    no [from] field. *)
Theorem hang_up_forwarded_for_anyone st sid to room :
  reachable (Payload := Payload) st ->
  find_socket (users st) to = Some room ->
  room <> sid ->
  handle (Payload := Payload) st sid (HangUp to)
    = Ok (st, [socket_to_emit sid room hang_up])
  /\ deliveries (Payload := Payload) (sockets st) [socket_to_emit sid room hang_up]
     = [(room, hang_up)]
  /\ from_of (hang_up (Payload := Payload)) = None.
Proof.
  intros Hreach Hfind Hne. pose proof (reachable_wf _ Hreach) as Hwf.
  destruct (resolved_room _ _ _ Hwf Hfind) as (_ & Hsock & _).
  split; [|split; [now apply deliveries_unicast | reflexivity]].
  simpl. unfold_handlers. now rewrite (relay_resolved _ _ _ _ _ Hwf Hfind).
Qed.
End WithPayload.

(** *** Messages with and without data *)

Lemma find_socket_for_some users to :
  find_socket_for users (Some to) = find_socket users to.
Proof. reflexivity. Qed.

Lemma find_socket_for_none users : find_socket_for users None = None.
Proof.
  unfold find_socket_for. generalize (keys users) as l.
  induction l as [|k l IH]; simpl; [reflexivity|].
  now destruct (get k users).
Qed.

Section Messages.
Context {Payload : Type}.
Implicit Types (st : server) (sid : string) (m : message Payload)
  (a : arrival Payload) (tr : list (arrival Payload)).

Lemma relay_for_some st sid to (mk : outcome (server_event Payload)) :
  relay_for st sid (Some to) mk = relay st sid to mk.
Proof. reflexivity. Qed.

Lemma relay_for_none st sid (mk : outcome (server_event Payload)) :
  relay_for st sid None mk = Ok [].
Proof. unfold relay_for. now rewrite find_socket_for_none. Qed.

Ltac unfold_listeners :=
  unfold on_offer_data, on_answer_data, on_ice_candidate_data,
    on_reject_call_data, on_hang_up_data.

(** A message that names its destination is handled as the event it
    amounts to. *)
Lemma receive_event st sid m ev :
  event_of_message m = Some ev -> receive st sid m = handle st sid ev.
Proof.
  destruct m as [n|[| |[[to|] o]]|[| |[[to|] o]]|[| |[[to|] o]]|[| |[to|]]|[| |[to|]]|];
    simpl; intros [= <-]; reflexivity.
Qed.

(** A message with data and no destination is dropped. *)
Lemma receive_unaddressed st sid m :
  has_data m = true -> event_of_message m = None ->
  receive st sid m = Ok (st, []).
Proof.
  destruct m as [n|[| |[[to|] o]]|[| |[[to|] o]]|[| |[[to|] o]]|[| |[to|]]|[| |[to|]]|];
    simpl; try discriminate; intros _ _; unfold_listeners; simpl;
    now rewrite relay_for_none.
Qed.

(** A message without data raises at the destructuring. *)
Lemma receive_no_data st sid m :
  has_data m = false ->
  exists x, receive st sid m = Throw x
            /\ (x = TypeError "Cannot destructure property 'to' of 'data' as it is undefined."
                \/ x = TypeError "Cannot destructure property 'to' of 'data' as it is null.").
Proof.
  destruct m as [n|[| |d]|[| |d]|[| |d]|[| |d]|[| |d]|];
    simpl; try discriminate; intros _; eauto.
Qed.


Lemma message_addressed m ev to :
  event_of_message m = Some ev -> destination ev = Some to ->
  has_data m = true /\ to_of m = Some to
  /\ is_hang_up_message m = is_hang_up ev.
Proof.
  destruct m as [n|[| |[[t|] o]]|[| |[[t|] o]]|[| |[[t|] o]]|[| |[t|]]|[| |[t|]]|];
    simpl; intros [= <-]; simpl; intros [= <-]; auto.
Qed.

Lemma message_unaddressed m :
  has_data m = true ->
  (event_of_message m = None
   \/ exists ev, event_of_message m = Some ev /\ destination ev = None) ->
  to_of m = None.
Proof.
  destruct m as [n|[| |[[t|] o]]|[| |[[t|] o]]|[| |[[t|] o]]|[| |[t|]]|[| |[t|]]|];
    simpl; try discriminate; try reflexivity;
    intros _ [H|(ev & [= <-] & H)]; discriminate.
Qed.

Lemma handle_presence_ok st sid (ev : client_event Payload) :
  destination ev = None -> exists r, handle st sid ev = Ok r.
Proof. destruct ev; simpl; try discriminate; eauto. Qed.

(** X2 (what raises).  With display names that are strings, a listener
    raises exactly when it is called without data ([undefined] or
    [null]: also a hang-up, also from a joined sender), or when the
    message is no hang-up, its destination resolves to a non-empty key
    and the sender has no record.  What it raises is the TypeError of the
    destructuring in the first case and the TypeError of reading
    [username] of [undefined] in the second.  A join and a disconnect
    never raise. *)
Theorem negotiation_raises_iff st sid m :
  ((exists x, receive st sid m = Throw x) <->
   has_data m = false
   \/ (is_hang_up_message m = false
       /\ truthy (find_socket_for (users st) (to_of m)) = true
       /\ get sid (users st) = None))
  /\ (forall x, receive st sid m = Throw x ->
        if has_data m
        then x = TypeError "Cannot read properties of undefined (reading 'username')"
        else x = TypeError "Cannot destructure property 'to' of 'data' as it is undefined."
             \/ x = TypeError "Cannot destructure property 'to' of 'data' as it is null.").
Proof.
  destruct (has_data m) eqn:Hdata.
  - destruct (event_of_message m) as [ev|] eqn:Hev.
    + rewrite (receive_event st sid m ev Hev).
      destruct (destination ev) as [to|] eqn:Hd.
      * destruct (message_addressed m ev to Hev Hd) as (_ & -> & ->).
        rewrite find_socket_for_some.
        destruct (handle_raises_iff st sid ev to Hd) as [Hiff Herr].
        split; [|exact Herr].
        rewrite Hiff. split; [auto|]. intros [H|H]; [discriminate | exact H].
      * rewrite (message_unaddressed m Hdata) by eauto.
        rewrite find_socket_for_none.
        destruct (handle_presence_ok st sid ev Hd) as [r ->].
        split; [|discriminate]. split; [intros [x H]; discriminate|].
        intros [H|(_ & H & _)]; discriminate.
    + rewrite (receive_unaddressed st sid m Hdata Hev).
      rewrite (message_unaddressed m Hdata) by auto.
      rewrite find_socket_for_none.
      split; [|discriminate]. split; [intros [x H]; discriminate|].
      intros [H|(_ & H & _)]; discriminate.
  - destruct (receive_no_data st sid m Hdata) as (x & Hx & Hm).
    rewrite Hx. split; [split; eauto|]. now intros y [= <-].
Qed.

(** Runs of arrivals. *)

Lemma arrive_input st a :
  arrival_has_data a = true ->
  match input_of a with
  | [] => arrive st a = Ok (st, [])
  | i :: _ => arrive st a = step st i /\ input_of a = [i]
              /\ may_arrive st a = admissible st i
  end.
Proof.
  destruct a as [sid|sid m]; [simpl; auto|].
  destruct m as [n|[| |[[t|] o]]|[| |[[t|] o]]|[| |[[t|] o]]|[| |[t|]]|[| |[t|]]|];
    simpl; try discriminate; intros _; auto;
    unfold on_offer_data, on_answer_data, on_ice_candidate_data,
      on_reject_call_data, on_hang_up_data; simpl;
    now rewrite relay_for_none.
Qed.

Lemma arrive_all_inputs tr : forall st,
  forallb arrival_has_data tr = true ->
  arrive_all st tr = run st (inputs_of tr).
Proof.
  induction tr as [|a tr IH]; intros st Hdata; [reflexivity|].
  simpl in Hdata. apply andb_true_iff in Hdata. destruct Hdata as [Ha Htr].
  pose proof (arrive_input st a Ha) as Hi.
  unfold inputs_of. simpl. fold (inputs_of tr).
  destruct (input_of a) as [|i l].
  - rewrite Hi. simpl. rewrite (IH st Htr).
    now destruct (run st (inputs_of tr)) as [[st' out]|x].
  - destruct Hi as (-> & [= ->] & _). simpl.
    destruct (step st i) as [r|x]; simpl; [|reflexivity].
    now rewrite (IH (fst r) Htr).
Qed.

Lemma may_arrive_all_inputs tr : forall st,
  forallb arrival_has_data tr = true ->
  may_arrive_all st tr = true ->
  admissible_trace st (inputs_of tr) = true.
Proof.
  induction tr as [|a tr IH]; intros st Hdata Hadm; [reflexivity|].
  simpl in Hdata. apply andb_true_iff in Hdata. destruct Hdata as [Ha Htr].
  simpl in Hadm. apply andb_true_iff in Hadm. destruct Hadm as [Hmay Hrest].
  pose proof (arrive_input st a Ha) as Hi.
  unfold inputs_of. simpl. fold (inputs_of tr).
  destruct (input_of a) as [|i l].
  - rewrite Hi in Hrest. simpl in *. now apply IH.
  - destruct Hi as (Hi & [= ->] & Hsame). rewrite Hi in Hrest.
    rewrite Hsame in Hmay. simpl. rewrite Hmay. simpl.
    destruct (step st i) as [r|x]; [now apply IH | reflexivity].
Qed.

(** X3 (clients that join first and send their data never crash the
    server).  With display names that are strings, a sequence of
    connections and messages that socket.io can deliver, in which every
    message carries data and every addressed message other than a
    hang-up comes from a socket that has joined and not disconnected
    since, runs to its end without raising; it ends in the state and with
    the emits of its connections, joins, disconnects and addressed
    events.  Messages with data and no destination are dropped, whoever
    sends them. *)
Theorem joined_senders_never_raise tr :
  may_arrive_all init tr = true ->
  forallb arrival_has_data tr = true ->
  senders_joined (inputs_of tr) = true ->
  exists st out,
    arrive_all init tr = Ok (st, out)
    /\ run init (inputs_of tr) = Ok (st, out).
Proof.
  intros Hadm Hdata Hj.
  destruct (inputs_joined_run (inputs_of tr)
              (may_arrive_all_inputs tr init Hdata Hadm) Hj)
    as (st & out & Hrun).
  exists st, out. split; [|exact Hrun].
  now rewrite (arrive_all_inputs tr init Hdata).
Qed.

End Messages.

(** *** The properties on the sample runs *)

Lemma negotiation_reads_only_witness :
  destination (Offer "bob" "sdp") = Some "bob"
  /\ handle trio "sA" (Offer "bob" "sdp")
     = Ok (trio, [socket_to_emit "sA" "sB" (offer "alice" "sdp")])
  /\ last_snapshot [socket_to_emit "sA" "sB" (offer "alice" "sdp")] = None.
Proof.
  split; [reflexivity|]. split; [reflexivity|].
  destruct (negotiation_reads_only trio "sA" (Offer "bob" "sdp") "bob" trio
              [socket_to_emit "sA" "sB" (offer "alice" "sdp")]
              eq_refl eq_refl)
    as (_ & H & _).
  exact H.
Defined.

Lemma negotiation_raises_witness :
  has_data (Payload := string) (HangUpMsg Undefined) = false
  /\ get "sA" (users trio) <> None
  /\ exists x, receive (Payload := string) trio "sA" (HangUpMsg Undefined) = Throw x.
Proof.
  split; [reflexivity|]. split; [discriminate|].
  apply (proj1 (negotiation_raises_iff (Payload := string) trio "sA"
                  (HangUpMsg Undefined))).
  left. reflexivity.
Defined.

Lemma joined_senders_witness :
  may_arrive_all init call_arrivals = true
  /\ forallb arrival_has_data call_arrivals = true
  /\ senders_joined (inputs_of call_arrivals) = true
  /\ exists st out, arrive_all init call_arrivals = Ok (st, out)
                    /\ run init (inputs_of call_arrivals) = Ok (st, out).
Proof.
  split; [reflexivity|]. split; [reflexivity|]. split; [reflexivity|].
  apply (joined_senders_never_raise call_arrivals); reflexivity.
Defined.
Lemma disconnect_cleanup_witness :
  holders (users trio) "bob" = [("sB", {| username := "bob"; id := "sB" |})]
  /\ exists st',
       step (Payload := string) trio (Event "sB" Disconnect)
         = Ok (st', [io_emit (update_users (values (users st')))])
       /\ get "sB" (users st') = None
       /\ handle st' "sA" (Offer "bob" "sdp") = Ok (st', []).
Proof.
  split; [reflexivity|].
  assert (Hreach : reachable (Payload := string) trio)
    by reached_by trio_trace.
  destruct (disconnect_cleanup (Payload := string) trio "sB"
              {| username := "bob"; id := "sB" |} "bob" Hreach eq_refl)
    as (st' & Hstep & _ & _ & Hget & _ & Hdrop).
  exists st'. split; [exact Hstep|]. split; [exact Hget|].
  apply Hdrop. reflexivity.
Defined.

Lemma presence_broadcast_witness :
  In "sA" (sockets trio)
  /\ exists st1 out1,
       step (Payload := string) trio (Event "sA" (Join "al")) = Ok (st1, out1)
       /\ deliveries (sockets st1) out1
          = map (fun s => (s, update_users (values (users st1)))) (sockets trio).
Proof.
  assert (Hin : In "sA" (sockets trio)) by (simpl; tauto).
  split; [exact Hin|].
  assert (Hreach : reachable (Payload := string) trio)
    by reached_by trio_trace.
  destruct (presence_broadcast_reach (Payload := string) trio "sA" "al" Hreach Hin)
    as ((st1 & out1 & Hstep & Hdel & _) & _).
  exists st1, out1. now split.
Defined.

Lemma join_disconnect_witness :
  get "s1" (users early) = None
  /\ on_disconnect (Payload := string)
       (fst (on_join (Payload := string) early "s1" "zed")) "s1"
     = (early, [io_emit (update_users (values (users early)))]).
Proof.
  split; [reflexivity|].
  apply (join_disconnect_round_trip (Payload := string) early "s1" "zed" eq_refl).
Defined.

Lemma snapshot_size_witness :
  length (values (users (fst (on_join (Payload := string) trio "sZ" "zoe")))) = 4
  /\ length (values (users (fst (on_disconnect (Payload := string) trio "sB")))) = 2.
Proof.
  assert (Hreach : reachable (Payload := string) trio)
    by reached_by trio_trace.
  split.
  - exact (proj1 (snapshot_size (Payload := string) trio "sZ" "zoe" Hreach)).
  - exact (proj2 (snapshot_size (Payload := string) trio "sB" "" Hreach)).
Defined.

Lemma delivered_to_first_holder_witness :
  In ("sA", offer "dave" "sdp")
     (deliveries (sockets twins) [socket_to_emit "sD" "sA" (offer "dave" "sdp")])
  /\ "sA" <> "sD"
  /\ exists u rest, holders (users twins) "carol" = ("sA", u) :: rest.
Proof.
  assert (Hin : In ("sA", offer "dave" "sdp")
                   (deliveries (sockets twins)
                      [socket_to_emit "sD" "sA" (offer "dave" "sdp")]))
    by (simpl; tauto).
  split; [exact Hin|].
  assert (Hreach : reachable (Payload := string) twins)
    by reached_by twins_trace.
  destruct (delivered_to_first_holder_only twins "sD" (Offer "carol" "sdp")
              "carol" twins _ "sA" (offer "dave" "sdp")
              Hreach eq_refl eq_refl Hin)
    as (Hne & _ & Hh).
  split; [exact Hne | exact Hh].
Defined.

Lemma registry_invariant_witness :
  NoDup (sockets trio) /\ NoDup (keys (users trio))
  /\ map id (values (users trio)) = keys (users trio).
Proof.
  assert (Hreach : reachable (Payload := string) trio)
    by reached_by trio_trace.
  destruct (registry_invariant (Payload := string) trio Hreach)
    as (H1 & _ & H3 & _ & _ & H6).
  repeat split; assumption.
Defined.

Lemma negotiation_frames_presence_witness :
  exists st' out out',
    run init call_trace = Ok (st', out)
    /\ run init (filter is_presence_input call_trace) = Ok (st', out')
    /\ last_snapshot out' = last_snapshot out.
Proof.
  destruct (run init call_trace) as [[st' out]|x] eqn:Hrun;
    [|vm_compute in Hrun; discriminate].
  destruct (negotiation_frames_presence call_trace init st' out Hrun)
    as (out' & Hrun' & Hsnap).
  exists st', out, out'. repeat split; assumption.
Defined.

Lemma hang_up_forwarded_witness :
  get "s1" (users early) = None
  /\ find_socket (users early) "bob" = Some "s2"
  /\ handle (Payload := string) early "s1" (HangUp "bob")
     = Ok (early, [socket_to_emit "s1" "s2" hang_up])
  /\ deliveries (Payload := string) (sockets early) [socket_to_emit "s1" "s2" hang_up]
     = [("s2", hang_up)].
Proof.
  split; [reflexivity|]. split; [reflexivity|].
  assert (Hreach : reachable (Payload := string) early)
    by reached_by early_trace.
  destruct (hang_up_forwarded_for_anyone (Payload := string) early "s1" "bob" "s2"
              Hreach eq_refl)
    as (Hh & Hd & _); [discriminate|].
  split; [exact Hh | exact Hd].
Defined.

End RelayMore.

(** * Further properties of the proxy route *)

Module ProxyMore.
Import Proxy ProxyFacts.
Local Open Scope string_scope.

(** *** Answers *)



(** *** Dollar signs in the URL *)

Lemma get_substitution_literal_prefix (matched before after p t : string) :
  no_dollar p = true ->
  get_substitution matched before after (p ++ t)
  = p ++ get_substitution matched before after t.
Proof.
  induction p as [|c p IH]; [reflexivity|]. cbn [no_dollar append].
  intros H. apply andb_true_iff in H. destruct H as [Hc Hp].
  apply negb_true_iff in Hc. cbn [get_substitution]. rewrite Hc.
  now rewrite (IH Hp).
Qed.

Lemma replace_first_occurrence (pat template : string) : forall a r before,
  no_match_before pat a (pat ++ r) = true ->
  replace_from before pat template (a ++ pat ++ r)
  = before ++ a ++ get_substitution pat (before ++ a) r template ++ r.
Proof.
  induction a as [|c a IH]; intros r before H.
  - cbn [append]. rewrite append_empty_r.
    pose proof (prefix_append pat r) as Hp.
    destruct (pat ++ r) as [|x y] eqn:E; cbn [replace_from]; rewrite Hp;
      rewrite <- E, drop_append; reflexivity.
  - cbn [no_match_before] in H. apply andb_true_iff in H. destruct H as [Hp H].
    apply negb_true_iff in Hp. cbn [append] in *.
    cbn [replace_from]. rewrite Hp, (IH r _ H).
    rewrite !append_assoc3. reflexivity.
Qed.

(** The four dollar patterns, at the head of a template. *)
Lemma get_substitution_patterns (matched before after t : string) :
  get_substitution matched before after ("$&" ++ t)
  = matched ++ get_substitution matched before after t
  /\ get_substitution matched before after ("$$" ++ t)
     = "$" ++ get_substitution matched before after t
  /\ get_substitution matched before after ("$`" ++ t)
     = before ++ get_substitution matched before after t
  /\ get_substitution matched before after ("$'" ++ t)
     = after ++ get_substitution matched before after t.
Proof. repeat split; reflexivity. Qed.

(** The base tag template around a URL that holds one dollar pattern
    [p]: everything but the pattern is copied. *)
Lemma base_tag_substitution (matched before after u1 u2 p x : string) :
  no_dollar u1 = true -> no_dollar u2 = true ->
  (forall t, get_substitution matched before after (p ++ t)
             = x ++ get_substitution matched before after t) ->
  get_substitution matched before after (base_tag (u1 ++ p ++ u2))
  = base_tag (u1 ++ x ++ u2).
Proof.
  intros H1 H2 Hp. unfold base_tag.
  rewrite (get_substitution_literal_prefix _ _ _ "<head><base href=") by reflexivity.
  rewrite (get_substitution_literal_prefix _ _ _ dq) by reflexivity.
  rewrite !append_assoc3.
  rewrite (get_substitution_literal_prefix _ _ _ u1) by exact H1.
  rewrite Hp.
  rewrite (get_substitution_literal_prefix _ _ _ u2) by exact H2.
  now rewrite (get_substitution_literal _ _ _ (dq ++ ">")) by reflexivity.
Qed.

(** X14 (dollar patterns in the URL).  The URL is pasted into the base
    tag as a replacement template, so a dollar pattern in it is expanded,
    not copied: in a page whose first head tag stands between [a] and
    [r], a dollar-ampersand becomes the text of the head tag, a doubled
    dollar becomes one dollar, a dollar-backquote becomes [a] and a
    dollar-apostrophe becomes [r]. *)
Theorem url_dollar_patterns_expand (u1 u2 a r : string) :
  no_dollar u1 = true -> no_dollar u2 = true ->
  no_match_before "<head>" a ("<head>" ++ r) = true ->
  replace "<head>" (base_tag (u1 ++ "$&" ++ u2)) (a ++ "<head>" ++ r)
  = a ++ base_tag (u1 ++ "<head>" ++ u2) ++ r
  /\ replace "<head>" (base_tag (u1 ++ "$$" ++ u2)) (a ++ "<head>" ++ r)
     = a ++ base_tag (u1 ++ "$" ++ u2) ++ r
  /\ replace "<head>" (base_tag (u1 ++ "$`" ++ u2)) (a ++ "<head>" ++ r)
     = a ++ base_tag (u1 ++ a ++ u2) ++ r
  /\ replace "<head>" (base_tag (u1 ++ "$'" ++ u2)) (a ++ "<head>" ++ r)
     = a ++ base_tag (u1 ++ r ++ u2) ++ r.
Proof.
  intros H1 H2 Ha. unfold replace.
  assert (Hfirst : forall template,
             replace_from "" "<head>" template (a ++ "<head>" ++ r)
             = a ++ get_substitution "<head>" a r template ++ r).
  { intros template. now rewrite (replace_first_occurrence _ _ _ _ _ Ha). }
  rewrite !Hfirst.
  repeat split; f_equal; f_equal; apply base_tag_substitution; trivial;
    intros t; apply get_substitution_patterns.
Qed.

(** X15 (pages without the four literals).  A page that holds none of
    the three attribute openings and no literal head tag comes back as
    fetched, whatever the URL and its origin are. *)
Theorem page_without_literals_unchanged (targetUrl baseUrl html : string) :
  occurs (root_relative "href") html = false ->
  occurs (root_relative "src") html = false ->
  occurs (root_relative "action") html = false ->
  occurs "<head>" html = false ->
  rewrite_html targetUrl baseUrl html = html.
Proof.
  intros Hh Hs Ha Hd. unfold rewrite_html, replace_all, replace.
  rewrite (replace_all_absent _ _ _ _ Hh), (replace_all_absent _ _ _ _ Hs),
    (replace_all_absent _ _ _ _ Ha), (replace_absent _ _ _ _ Hd).
  reflexivity.
Qed.

(** *** The properties on sample pages *)

Lemma url_dollar_patterns_witness :
  no_match_before "<head>" "<html>" ("<head>" ++ "</head>") = true
  /\ replace "<head>" (base_tag ("http://x.org/?q=" ++ "$&" ++ "x"))
       ("<html>" ++ "<head>" ++ "</head>")
     = "<html>" ++ base_tag ("http://x.org/?q=" ++ "<head>" ++ "x") ++ "</head>".
Proof.
  split; [reflexivity|].
  exact (proj1 (url_dollar_patterns_expand "http://x.org/?q=" "x" "<html>" "</head>"
                  eq_refl eq_refl eq_refl)).
Defined.

Lemma page_without_literals_witness :
  occurs "<head>" plain_page = false
  /\ rewrite_html "http://x.org/plain?a=$&" "http://x.org" plain_page = plain_page.
Proof.
  split; [reflexivity|].
  apply (page_without_literals_unchanged "http://x.org/plain?a=$&" "http://x.org"
           plain_page); reflexivity.
Defined.

End ProxyMore.

(** * Presence under negotiation traffic, and the order of a snapshot *)

Module PresenceMore.
Import JsObject JsObjectFacts Relay RelayFacts.

Lemma keys_delete_filter {V : Type} (k : string) (o : list (string * V)) :
  keys (delete k o) = filter (fun k' => negb (String.eqb k' k)) (keys o).
Proof.
  induction o as [|[k' v] o IH]; simpl; [reflexivity|].
  destruct (String.eqb k' k); simpl; [exact IH | now rewrite IH].
Qed.

Section WithPayload.
Context {Payload : Type}.
Implicit Types (st : server) (tr : list (input Payload)).

(** X17 (the order of a snapshot).  In a reachable state, the snapshot
    lists one record per registry key, in key order; a connected socket
    that joins for the first time goes last, one that joins again keeps
    its place, and a disconnect removes its record without reordering
    the others. *)
Theorem snapshot_order st sid name :
  reachable (Payload := Payload) st ->
  In sid (sockets st) ->
  map id (values (users st)) = keys (users st)
  /\ map id (values (users (fst (on_join (Payload := Payload) st sid name))))
     = (if in_dec string_dec sid (keys (users st))
        then keys (users st) else keys (users st) ++ [sid])
  /\ map id (values (users (fst (on_disconnect (Payload := Payload) st sid))))
     = filter (fun k => negb (String.eqb k sid)) (keys (users st)).
Proof.
  intros Hreach Hin. pose proof (reachable_wf _ Hreach) as Hwf.
  assert (Hj : wf (fst (on_join (Payload := Payload) st sid name))).
  { apply (wf_step st (Event sid (Join name)) _
             (snd (on_join (Payload := Payload) st sid name)) Hwf).
    - now apply connected_iff.
    - reflexivity. }
  assert (Hd : wf (fst (on_disconnect (Payload := Payload) (close_socket st sid) sid))).
  { apply (wf_step st (Event sid Disconnect) _
             (snd (on_disconnect (Payload := Payload) (close_socket st sid) sid)) Hwf).
    - now apply connected_iff.
    - reflexivity. }
  split; [|split].
  - apply map_id_values; [exact (wf_users_nodup _ Hwf) | exact (wf_users_id _ Hwf)].
  - rewrite (map_id_values _ (wf_users_nodup _ Hj) (wf_users_id _ Hj)). simpl.
    destruct (in_dec string_dec sid (keys (users st))) as [I|N].
    + now apply keys_set_present.
    + now apply keys_set_fresh.
  - pose proof (map_id_values _ (wf_users_nodup _ Hd) (wf_users_id _ Hd)) as Hm.
    simpl in *. rewrite Hm. apply keys_delete_filter.
Qed.

(** X18 (presence under negotiation traffic).  For every trace that
    socket.io can produce and that runs to its end, negotiation events
    included, the latest snapshot broadcast lists, up to order, exactly
    the roster of the trace. *)
Theorem presence_with_negotiation tr st log S :
  admissible_trace init tr = true ->
  run init tr = Ok (st, log) ->
  last_snapshot log = Some S ->
  S = values (users st)
  /\ Permutation S (roster tr)
  /\ length S = length (joined_now tr).
Proof.
  intros Hadm Hrun HS.
  destruct (run_tracks tr st log Hadm Hrun) as (Hwf & Hon & Hus & Hsnap).
  rewrite Hsnap in HS.
  destruct (existsb is_mutation tr); [|discriminate]. injection HS as <-.
  pose proof (wf_users_nodup _ Hwf) as Hnd.
  pose proof (wf_users_id _ Hwf) as Hid.
  assert (Hperm : Permutation (values (users st)) (roster tr)).
  { apply NoDup_Permutation.
    - apply NoDup_map_inv with (f := id).
      now rewrite (map_id_values _ Hnd Hid).
    - apply NoDup_map_inv with (f := id). rewrite map_id_roster.
      apply NoDup_joined_now.
    - intros [n sid]. rewrite (in_values_get _ _ Hnd Hid). simpl. rewrite Hus.
      unfold roster. rewrite in_map_iff. split.
      + intros H. destruct (display_name tr sid) as [m|] eqn:E; [|discriminate].
        simpl in H. injection H as ->. exists sid. unfold current_name.
        rewrite E. split; [reflexivity|]. apply in_joined_now.
        assert (Hol : online tr sid = true).
        { apply Hon, (wf_users_connected _ Hwf).
          apply (get_some_key sid {| username := n; id := sid |}).
          now rewrite Hus, E. }
        repeat split; eauto.
        destruct (in_dec string_dec sid (map input_sid tr)) as [I|N]; [exact I|].
        rewrite (online_untouched _ _ N) in Hol. discriminate.
      + intros (sid' & [= <- <-] & Hin). apply in_joined_now in Hin.
        destruct Hin as (_ & _ & m & Hdn). unfold current_name.
        now rewrite Hdn. }
  split; [reflexivity|]. split; [exact Hperm|].
  rewrite <- map_id_roster, length_map. now apply Permutation_length.
Qed.
End WithPayload.

Lemma snapshot_order_witness :
  In "sA" (sockets trio)
  /\ map id (values (users (fst (on_disconnect (Payload := string) trio "sA"))))
     = ["sB"; "sC"].
Proof.
  assert (Hin : In "sA" (sockets trio)) by (simpl; tauto).
  split; [exact Hin|].
  assert (Hreach : reachable (Payload := string) trio)
    by reached_by trio_trace.
  destruct (snapshot_order (Payload := string) trio "sA" "" Hreach Hin)
    as (_ & _ & H).
  exact H.
Defined.

Lemma presence_with_negotiation_witness :
  admissible_trace init call_trace = true
  /\ roster call_trace = [{| username := "alice"; id := "sA" |}]
  /\ exists st log S,
       run init call_trace = Ok (st, log)
       /\ last_snapshot log = Some S
       /\ Permutation S (roster call_trace).
Proof.
  split; [reflexivity|]. split; [reflexivity|].
  destruct (run init call_trace) as [[st log]|x] eqn:Hrun;
    [|vm_compute in Hrun; discriminate].
  destruct (last_snapshot log) as [S|] eqn:HS.
  - exists st, log, S. split; [reflexivity|]. split; [exact HS|].
    exact (proj1 (proj2 (presence_with_negotiation call_trace st log S
                           eq_refl Hrun HS))).
  - exfalso. vm_compute in Hrun. injection Hrun as <- <-.
    vm_compute in HS. discriminate.
Defined.

End PresenceMore.
